(** * PortScanner.py: a shallow embedding and its verified properties

    The scanner of [PortScanner.py] resolves a target, probes a range of TCP
    ports through a thread pool, keeps the open ones and writes them to a
    JSON or CSV file.  The network, the service database, the file system
    and the clock are outside the program: they are gathered in a record
    [World] of oracles, one per library call of the source.  Console output,
    socket operations and file writes are recorded as a trace of events, and
    Python exceptions are carried by a small writer-and-error monad [M].

    Python [str] values are modelled as Rocq strings, that is, as their UTF-8
    bytes.  Splitting and replacing on an ASCII character act on the bytes.
    What [str.isdigit] and [int] answer on ASCII text is computed here; what
    they answer on characters outside ASCII is read from the Unicode
    database of the interpreter, which is part of the world. *)

From Stdlib Require Import ZArith List String Ascii Bool Lia Permutation Arith.
From Stdlib Require Import QArith DecimalString DecimalPos.
Import ListNotations.
Close Scope Q_scope.
Open Scope list_scope.
Open Scope Z_scope.
Open Scope string_scope.

(** ** Python values, exceptions and effects *)

(** The exception classes the source can meet.  All of them derive from
    [Exception]; [Gaierror] is [socket.gaierror]. *)
Inductive exn_class : Type :=
| Gaierror
| OSError
| ValueError
| OverflowError
| IndexError
| UnicodeError
| OtherException.

Record exn : Type := mkExn { exn_cls : exn_class; exn_msg : string }.

(** Result of a call that may raise. *)
Inductive py (A : Type) : Type :=
| Ok (a : A)
| Exc (e : exn).
Arguments Ok {A} a.
Arguments Exc {A} e.

(** The dynamically typed values found in a result entry. *)
Inductive pyval : Type :=
| PyNone
| PyInt (z : Z)
| PyStr (s : string).

(** An element of [open_ports]. [save_results] dispatches on its run-time
    type: a tuple, a dict, or anything else (kept as its [str]). *)
Inductive entry : Type :=
| ETuple (items : list pyval)
| EDict (d : list (string * pyval))
| EOther (repr : string).

Inductive event : Type :=
| EPrint (msg : string)                   (* print(msg) *)
| ELookup (host : string)                 (* socket.gethostbyname(host) *)
| ESocket (port : Z)                      (* socket.socket(...) of the probe of port *)
| EConnect (host : string) (port : Z)     (* sock.connect_ex((host, port)) *)
| EClose (port : Z)                       (* end of the with block: sock.close() *)
| EServ (port : Z)                        (* socket.getservbyport(port) *)
| EWrite (filename content : string)      (* the text written to the file *)
| ELogInfo (msg : string)
| ELogWarning (msg : string).

(** What [int] makes of a character outside ASCII that it accepts: a
    blank, or the decimal digit of that value. *)
Inductive int_char : Type :=
| AsSpace
| AsDigit (d : nat).

(** A float, as [--timeout] can be given: a number, an infinity or a NaN. *)
Inductive pyfloat : Type :=
| FNum (q : Q)
| FInf (negative : bool)
| FNaN.

Coercion FNum : Q >-> pyfloat.

(** What the program asks of its environment.  A world is fixed: the same
    question gets the same answer each time it is asked.  [socket_new] is
    the creation of the socket of the probe of a port, [connect_ex] takes
    the timeout set on the socket, [elapsed] is the duration that [main]
    prints, already formatted.

    The interpreter and its platform are part of the world.
    [unicode_isdigit] is [str.isdigit] on a text that holds characters
    outside ASCII.  [unicode_int_chars] reads a run of such characters for
    [int]: one blank or digit per character, or nothing when one of them is
    neither.  [int_max_str_digits] is the limit on the digits of a literal
    (0 when there is none, at least 640 otherwise).  [timeout_overflows] tells the waits that do not
    fit the clock of the platform.  [thread_order] is the order in which the
    threads get to run during a scan: its k-th number selects, among the
    threads that can take a step, the one that takes the k-th step. *)
Record World : Type := mkWorld {
  gethostbyname : string -> py string;
  socket_new : Z -> py unit;
  connect_ex : pyfloat -> string -> Z -> py Z;
  getservbyport : Z -> py string;
  open_file : string -> py unit;
  json_dump : list entry -> string;
  elapsed : string;
  unicode_isdigit : string -> bool;
  unicode_int_chars : string -> option (list int_char);
  int_max_str_digits : nat;
  timeout_overflows : Q -> bool;
  thread_order : list nat
}.

(** Computations: the events emitted so far and a value or an exception. *)
Definition M (A : Type) : Type := (list event * py A)%type.

Definition ret {A} (a : A) : M A := ([], Ok a).

Definition bind {A B} (m : M A) (f : A -> M B) : M B :=
  match m with
  | (t, Ok a) => let (t', r) := f a in ((t ++ t')%list, r)
  | (t, Exc e) => (t, Exc e)
  end.

Definition emit (e : event) : M unit := ([e], Ok tt).

Definition call {A} (r : py A) : M A := ([], r).

Definition raise {A} (c : exn_class) (msg : string) : M A :=
  ([], Exc (mkExn c msg)).

(** [try: m except <classes accepted by catches> as e: h e] *)
Definition try_except {A} (m : M A) (catches : exn_class -> bool)
    (h : exn -> M A) : M A :=
  match m with
  | (t, Exc e) =>
      if catches (exn_cls e) then let (t', r) := h e in ((t ++ t')%list, r)
      else (t, Exc e)
  | _ => m
  end.

(** [with ... : m], whose exit runs [cleanup] on every path. *)
Definition finally {A} (m : M A) (cleanup : list event) : M A :=
  ((fst m ++ cleanup)%list, snd m).

Declare Scope py_scope.
Delimit Scope py_scope with py.
Notation "x <- m ;; k" := (bind m (fun x => k))
  (at level 61, m at next level, right associativity) : py_scope.
Notation "m ;;; k" := (bind m (fun _ => k))
  (at level 61, right associativity) : py_scope.
Notation "' pat <- m ;; k" := (bind m (fun x => match x with pat => k end))
  (at level 61, pat pattern, m at next level, right associativity) : py_scope.
Open Scope py_scope.

Definition trace {A} (m : M A) : list event := fst m.
Definition outcome {A} (m : M A) : py A := snd m.

Definition catch_gaierror (c : exn_class) : bool :=
  match c with Gaierror => true | _ => false end.

(** [except Exception] and the bare [except:] accept every class above. *)
Definition catch_all (c : exn_class) : bool := true.

(** ** String primitives of Python used by the source *)

Definition chr (n : nat) : ascii := ascii_of_nat n.
Definition dquote : ascii := chr 34.
Definition CR : ascii := chr 13.
Definition LF : ascii := chr 10.
Definition CRLF : string := String CR (String LF EmptyString).

Definition is_ascii_digit (c : ascii) : bool :=
  ((48 <=? nat_of_ascii c) && (nat_of_ascii c <=? 57))%nat.

Fixpoint all_digits (s : string) : bool :=
  match s with
  | EmptyString => true
  | String c s' => is_ascii_digit c && all_digits s'
  end.

(** [s.isdigit()] on ASCII text: every character is one of 0 to 9 and there
    is at least one. *)
Definition ascii_isdigit (s : string) : bool :=
  match s with
  | EmptyString => false
  | _ => all_digits s
  end.

(** A byte of an ASCII character; the bytes of the other characters are all
    above 127. *)
Definition is_ascii_byte (c : ascii) : bool := (nat_of_ascii c <? 128)%nat.

Fixpoint is_ascii_text (s : string) : bool :=
  match s with
  | EmptyString => true
  | String c s' => is_ascii_byte c && is_ascii_text s'
  end.

(** [s.isdigit()]: every character is a digit and there is at least one.
    Outside ASCII the digits are those of the Unicode database. *)
Definition isdigit (w : World) (s : string) : bool :=
  if is_ascii_text s then ascii_isdigit s else unicode_isdigit w s.

(** [s.replace(old, new)] for a one-character [old]. *)
Fixpoint replace (old : ascii) (new : string) (s : string) : string :=
  match s with
  | EmptyString => EmptyString
  | String c s' =>
      if Ascii.eqb c old then new ++ replace old new s'
      else String c (replace old new s')
  end.

(** [s.split(sep)] for a one-character [sep]: the pieces between the
    separators, so one more piece than there are separators. *)
Fixpoint split (sep : ascii) (s : string) : list string :=
  match s with
  | EmptyString => [EmptyString]
  | String c s' =>
      if Ascii.eqb c sep then EmptyString :: split sep s'
      else match split sep s' with
           | p :: ps => String c p :: ps
           | [] => [String c EmptyString]
           end
  end.

(** [s.lower()] *)
Definition lower_char (c : ascii) : ascii :=
  let n := nat_of_ascii c in
  if ((65 <=? n) && (n <=? 90))%nat then ascii_of_nat (n + 32) else c.

Fixpoint lower (s : string) : string :=
  match s with
  | EmptyString => EmptyString
  | String c s' => String (lower_char c) (lower s')
  end.

(** [str(n)] for an int.  The scanner prints only ports of a range whose
    bounds [int] has read: they have no more digits than the bounds, and the
    digit limit of the interpreter, passed by [int], does not stop [str]. *)
Definition str_of_int (n : Z) : string := NilZero.string_of_int (Z.to_int n).

(** The ASCII blanks that [int] skips around a literal: tab, line feed,
    vertical tab, form feed, carriage return and space. *)
Definition is_space (c : ascii) : bool :=
  let n := nat_of_ascii c in
  (((9 <=? n) && (n <=? 13)) || (n =? 32))%nat.

Fixpoint lstrip (s : string) : string :=
  match s with
  | String c s' => if is_space c then lstrip s' else s
  | EmptyString => EmptyString
  end.

(** Removes the trailing white space: a character is kept when something
    that is kept follows it, or when it is not a space. *)
Fixpoint rstrip (s : string) : string :=
  match s with
  | EmptyString => EmptyString
  | String c s' =>
      match rstrip s' with
      | EmptyString => if is_space c then EmptyString else String c EmptyString
      | r => String c r
      end
  end.

Definition strip (s : string) : string := rstrip (lstrip s).

Definition digit_value (c : ascii) : Z := Z.of_nat (nat_of_ascii c - 48).

(** The digits of a decimal literal after its first digit: digits, each
    optionally preceded by a single underscore. [acc] is the value read. *)
Fixpoint int_digits (acc : Z) (s : string) : option Z :=
  match s with
  | EmptyString => Some acc
  | String c s' =>
      if is_ascii_digit c then int_digits (10 * acc + digit_value c) s'
      else if Ascii.eqb c "_" then
        match s' with
        | String d s'' =>
            if is_ascii_digit d then int_digits (10 * acc + digit_value d) s''
            else None
        | EmptyString => None
        end
      else None
  end.

Definition int_unsigned (s : string) : option Z :=
  match s with
  | String c s' =>
      if is_ascii_digit c then int_digits (digit_value c) s' else None
  | EmptyString => None
  end.

Definition render_int_char (x : int_char) : ascii :=
  match x with
  | AsSpace => " "
  | AsDigit d => ascii_of_nat (48 + Nat.modulo d 10)
  end.

Fixpoint string_of_chars (l : list ascii) : string :=
  match l with
  | [] => EmptyString
  | c :: l' => String c (string_of_chars l')
  end.

(** The ASCII text of a run of characters outside ASCII, for [int]. *)
Definition ascii_of_run (w : World) (run : string) : option string :=
  match run with
  | EmptyString => Some EmptyString
  | _ => option_map (fun l => string_of_chars (map render_int_char l))
                    (unicode_int_chars w run)
  end.

(** First step of [int] on a text: the blanks and the decimal digits that
    are outside ASCII become a space and the ASCII digit of the same value,
    ASCII characters stay, any other character makes the literal invalid.
    [run] holds the bytes, read so far, of the current run of characters
    outside ASCII. *)
Fixpoint to_ascii_decimal (w : World) (run : string) (s : string) : option string :=
  match s with
  | EmptyString => ascii_of_run w run
  | String c s' =>
      if is_ascii_byte c then
        match ascii_of_run w run, to_ascii_decimal w EmptyString s' with
        | Some r, Some t => Some (r ++ String c t)
        | _, _ => None
        end
      else to_ascii_decimal w (run ++ String c EmptyString) s'
  end.

Fixpoint count_digits (s : string) : nat :=
  match s with
  | EmptyString => O
  | String c s' => ((if is_ascii_digit c then 1 else 0) + count_digits s')%nat
  end.

(** The literal has more digits than the interpreter converts. *)
Definition exceeds_limit (w : World) (digits : string) : bool :=
  negb (int_max_str_digits w =? 0)%nat &&
  (int_max_str_digits w <? count_digits digits)%nat.

(** [int(s)] for a string [s], base 10: blanks around, an optional sign,
    then digits, at most as many as the interpreter converts.  Every
    failure is a [ValueError]; its message, which the interpreter ends with
    the text itself or with the count of its digits, is cut short here: the
    scanner never reads it. *)
Definition int_of_str (w : World) (s : string) : py Z :=
  let unsigned digits :=
    if exceeds_limit w digits then None else int_unsigned digits in
  let r :=
    match to_ascii_decimal w EmptyString s with
    | None => None
    | Some text =>
        let body := strip text in
        match body with
        | EmptyString => None
        | String c s' =>
            if Ascii.eqb c "+" then unsigned s'
            else if Ascii.eqb c "-" then option_map Z.opp (unsigned s')
            else unsigned body
        end
    end in
  match r with
  | Some z => Ok z
  | None => Exc (mkExn ValueError "invalid literal for int() with base 10")
  end.

(** [range(a, b)] *)
Definition range (a b : Z) : list Z :=
  map (fun i => a + Z.of_nat i) (seq 0 (Z.to_nat (b - a))).

(** A dict as the list of its items, in insertion order. *)
Fixpoint dict_get {K V} (eqb : K -> K -> bool) (d : list (K * V)) (k : K)
    (default : V) : V :=
  match d with
  | [] => default
  | (k', v) :: d' => if eqb k' k then v else dict_get eqb d' k default
  end.

Fixpoint map_M {A B} (f : A -> M B) (l : list A) : M (list B) :=
  match l with
  | [] => ret []
  | x :: l' => y <- f x ;; ys <- map_M f l' ;; ret (y :: ys)
  end.

Fixpoint fold_M {A S} (f : S -> A -> M S) (l : list A) (s : S) : M S :=
  match l with
  | [] => ret s
  | x :: l' => s' <- f s x ;; fold_M f l' s'
  end.

(** ** class PortScanner *)

Record PortScanner : Type := mkScanner {
  target : string;           (* IP ou domaine *)
  threads : Z;               (* nombre de threads paralleles *)
  timeout : pyfloat;         (* temps d'attente par connexion *)
  open_ports : list entry    (* liste des ports ouverts trouves *)
}.

(** The default values of the parameters of [__init__]. *)
Definition default_threads : Z := 10.
Definition default_timeout : Q := 2%Q.

(** [PortScanner.__init__] *)
Definition PortScanner_init (target : string) (threads : Z)
    (timeout : pyfloat) : PortScanner :=
  mkScanner target threads timeout [].

(** [PortScanner.resolve_target] *)
Definition resolve_target (w : World) (self : PortScanner) : M (option string) :=
  try_except
    (if negb (isdigit w (replace "." EmptyString (target self))) then
       emit (ELookup (target self)) ;;;
       ip <- call (gethostbyname w (target self)) ;;
       emit (EPrint ("[+] " ++ target self ++ " résolu en " ++ ip)) ;;;
       ret (Some ip)
     else ret (Some (target self)))
    catch_gaierror
    (fun _ =>
       emit (EPrint ("[-] Impossible de résoudre " ++ target self)) ;;;
       ret None).

Definition common_services : list (Z * string) :=
  [ (21, "FTP"); (22, "SSH"); (23, "Telnet"); (25, "SMTP");
    (53, "DNS"); (80, "HTTP"); (110, "POP3"); (143, "IMAP");
    (443, "HTTPS"); (993, "IMAPS"); (995, "POP3S");
    (3306, "MySQL"); (5432, "PostgreSQL"); (3389, "RDP") ].

(** [PortScanner.get_service_name] *)
Definition get_service_name (w : World) (port : Z) : M string :=
  try_except
    (emit (EServ port) ;;; call (getservbyport w port))
    catch_all
    (fun _ => ret (dict_get Z.eqb common_services port "Inconnu")).

(** [sock.settimeout(t)]: a NaN is refused, then a wait that does not fit
    the clock of the platform, then a negative wait. *)
Definition settimeout (w : World) (t : pyfloat) : py unit :=
  match t with
  | FNaN => Exc (mkExn ValueError "Invalid value NaN (not a number)")
  | FInf _ =>
      Exc (mkExn OverflowError "timestamp too large to convert to C _PyTime_t")
  | FNum q =>
      if timeout_overflows w q then
        Exc (mkExn OverflowError "timestamp too large to convert to C _PyTime_t")
      else if Qle_bool 0 q then Ok tt
      else Exc (mkExn ValueError "Timeout value out of range")
  end.

(** [PortScanner.scan_port] *)
Definition scan_port (w : World) (self : PortScanner) (port : Z)
    : M (Z * option string * string) :=
  try_except
    (call (socket_new w port) ;;;
     emit (ESocket port) ;;;
     finally
       (call (settimeout w (timeout self)) ;;;
        emit (EConnect (target self) port) ;;;
        result <- call (connect_ex w (timeout self) (target self) port) ;;
        if (result =? 0)%Z then
          service <- get_service_name w port ;;
          ret (port, Some service, "ouvert")
        else ret (port, None, "fermé"))
       [EClose port])
    catch_all
    (fun e => ret (port, None, "erreur: " ++ exn_msg e)).

(** [a, b = it] for an iterator [it] of lazily computed items (here
    [map(int, ...)]): the items are demanded one by one, a third one is
    demanded to see that the iterator is exhausted. *)
Definition unpack2 {A} (items : list (py A)) : py (A * A) :=
  match items with
  | [] => Exc (mkExn ValueError "not enough values to unpack (expected 2, got 0)")
  | Exc e :: _ => Exc e
  | Ok a :: [] =>
      Exc (mkExn ValueError "not enough values to unpack (expected 2, got 1)")
  | Ok a :: Exc e :: _ => Exc e
  | Ok a :: Ok b :: [] => Ok (a, b)
  | Ok a :: Ok b :: Exc e :: _ => Exc e
  | Ok a :: Ok b :: Ok _ :: _ =>
      Exc (mkExn ValueError "too many values to unpack (expected 2)")
  end.

(** [start_port, end_port = map(int, port_range.split('-'))] *)
Definition parse_port_range (w : World) (port_range : string) : py (Z * Z) :=
  unpack2 (map (int_of_str w) (split "-" port_range)).

(** *** The thread pool

    [concurrent.futures.ThreadPoolExecutor]: a queue of submitted tasks and
    worker threads, each idle ([None]) or running the probe of a port. *)
Record pool : Type := mkPool {
  max_workers : Z;
  workers : list (option Z);
  work_queue : list Z;
  finished : list Z
}.

Definition ThreadPoolExecutor (max_workers : Z) : py pool :=
  if (max_workers <=? 0)%Z then
    Exc (mkExn ValueError "max_workers must be greater than 0")
  else Ok (mkPool max_workers [] [] []).

(** Removes the element at index [i]. *)
Fixpoint pick {A} (i : nat) (l : list A) : option (A * list A) :=
  match l, i with
  | [], _ => None
  | x :: l', O => Some (x, l')
  | x :: l', S j =>
      match pick j l' with
      | Some (y, r) => Some (y, x :: r)
      | None => None
      end
  end.

Fixpoint drain {A} (n : nat) (sched : list nat) (pending : list A) : list A :=
  match n with
  | O => []
  | S n' =>
      match pick (Nat.modulo (hd O sched) (List.length pending)) pending with
      | Some (y, rest) => y :: drain n' (tl sched) rest
      | None => []
      end
  end.

(** [as_completed(fs)] yields every future once, in the order the run
    happens to complete them.  That order is the schedule [sched]: its
    k-th number selects, among the futures still pending, the one that is
    yielded k-th. *)
Definition as_completed {A} (sched : list nat) (fs : list A) : list A :=
  drain (List.length fs) sched fs.

Definition pyval_of_option (o : option string) : pyval :=
  match o with
  | Some s => PyStr s
  | None => PyNone
  end.

Definition str_of_option (o : option string) : string :=
  match o with
  | Some s => s
  | None => "None"
  end.

Definition with_open_ports (self : PortScanner) (l : list entry) : PortScanner :=
  mkScanner (target self) (threads self) (timeout self) l.

Definition append_open (self : PortScanner) (e : entry) : PortScanner :=
  with_open_ports self (open_ports self ++ [e])%list.

(** The body of the loop [for future in as_completed(future_to_port)]. *)
Definition collect (self : PortScanner) (r : Z * option string * string)
    : M PortScanner :=
  let '(port, service, status) := r in
  if String.eqb status "ouvert" then
    emit (EPrint ("[+] Port " ++ str_of_int port ++ " ouvert - "
                  ++ str_of_option service)) ;;;
    ret (append_open self (ETuple [PyInt port; pyval_of_option service]))
  else ret self.

Definition has_event (t : list event) : bool :=
  match t with
  | [] => false
  | _ => true
  end.

(** The [i]-th of the threads that still have something to do takes a step:
    it emits its next event. *)
Fixpoint take_event (i : nat) (threads : list (list event))
    : option (event * list (list event)) :=
  match threads with
  | [] => None
  | [] :: rest =>
      match take_event i rest with
      | Some (e, rest') => Some (e, [] :: rest')
      | None => None
      end
  | (e :: t) :: rest =>
      match i with
      | O => Some (e, t :: rest)
      | S j =>
          match take_event j rest with
          | Some (e', rest') => Some (e', (e :: t) :: rest')
          | None => None
          end
      end
  end.

(** The task of index [i] has returned: its thread has nothing left to do. *)
Definition task_done (threads : list (list event)) (i : nat) : bool :=
  match nth_error threads i with
  | Some (_ :: _) => false
  | _ => true
  end.

(** The turns of a loop [for future in as_completed(...)] whose body is
    [body]: the turn for the future of index [i] is [(i, t)], with [t] the
    events of the body on the result of this future. *)
Fixpoint turns_of {A S} (body : S -> A -> M S) (futures : list (nat * A)) (s : S)
    : list (nat * list event) :=
  match futures with
  | [] => []
  | (i, x) :: rest =>
      (i, trace (body s x)) ::
      match outcome (body s x) with
      | Ok s' => turns_of body rest s'
      | Exc _ => []
      end
  end.

(** The next step of the loop: its turns are taken in order, and the turn
    for a future waits until the task of this future has returned. *)
Fixpoint next_turn (threads : list (list event)) (turns : list (nat * list event))
    : option (event * list (nat * list event)) :=
  match turns with
  | [] => None
  | (i, t) :: turns' =>
      if task_done threads i then
        match t with
        | e :: t' => Some (e, (i, t') :: turns')
        | [] => next_turn threads turns'
        end
      else None
  end.

(** One step after the other, the thread selected by [order] runs: one of
    the tasks that have something left to do or, when it does not have to
    wait, the loop (selected by the number that follows those of the
    tasks). *)
Fixpoint interleave (steps : nat) (order : list nat) (threads : list (list event))
    (turns : list (nat * list event)) : list event :=
  match steps with
  | O => []
  | S n =>
      let live := List.length (filter has_event threads) in
      match next_turn threads turns with
      | Some (e, turns') =>
          let k := Nat.modulo (hd O order) (S live) in
          if (k <? live)%nat then
            match take_event k threads with
            | Some (e', threads') => e' :: interleave n (tl order) threads' turns
            | None => []
            end
          else e :: interleave n (tl order) threads turns'
      | None =>
          match take_event (Nat.modulo (hd O order) live) threads with
          | Some (e', threads') => e' :: interleave n (tl order) threads' turns
          | None => []
          end
      end
  end.

(** The trace of tasks that run in the threads of a pool while the calling
    thread loops over their results: the events of each thread in their own
    order, those of different threads mixed as the threads got to run. *)
Definition run_threads (order : list nat) (threads : list (list event))
    (turns : list (nat * list event)) : list event :=
  interleave (List.length (List.concat threads)
              + List.length (List.concat (map snd turns)))
             order threads turns.

(** The tasks run in the threads of a pool while the calling thread runs
    [body] on their results, taken in the order [completed] of
    [as_completed]; a task that raises would make [future.result()] raise in
    the loop.  Every mix of the threads is the trace of some world; a pool
    of few workers only produces some of them. *)
Definition concurrently {A S} (w : World) (tasks : list (M A))
    (completed : list (nat * A) -> list (nat * A)) (body : S -> A -> M S) (s : S)
    : M S :=
  match outcome (map_M (fun task => task) tasks) with
  | Ok results =>
      let futures := completed (combine (seq 0 (List.length results)) results) in
      (run_threads (thread_order w) (map trace tasks) (turns_of body futures s),
       outcome (fold_M body (map snd futures) s))
  | Exc e => (run_threads (thread_order w) (map trace tasks) [], Exc e)
  end.

(** [PortScanner.port_scan].  The probes run in the threads of the pool,
    the loop that collects their results runs in the calling thread. *)
Definition port_scan (w : World) (sched : list nat) (self : PortScanner)
    (port_range : string) : M PortScanner :=
  emit (EPrint ("[*] Scan des ports " ++ port_range ++ " sur " ++ target self)) ;;;
  ' (start_port, end_port) <- call (parse_port_range w port_range) ;;
  let ports_to_scan := range start_port (end_port + 1) in
  executor <- call (ThreadPoolExecutor (threads self)) ;;
  concurrently w (map (scan_port w self) ports_to_scan)
    (as_completed sched) collect self.

(** *** The CSV writer ([csv.DictWriter], dialect excel) *)

Definition fieldnames : list string := ["port"; "service"; "banner"].

(** The text of a field: nothing for [None], [str] for a number. *)
Definition csv_str (v : pyval) : string :=
  match v with
  | PyNone => EmptyString
  | PyInt z => str_of_int z
  | PyStr s => s
  end.

(** Minimal quoting: the characters that force a field between quotes. *)
Definition needs_quoting (c : ascii) : bool :=
  Ascii.eqb c "," || Ascii.eqb c dquote || Ascii.eqb c CR || Ascii.eqb c LF.

Fixpoint any_char (f : ascii -> bool) (s : string) : bool :=
  match s with
  | EmptyString => false
  | String c s' => f c || any_char f s'
  end.

Fixpoint double_quotes (s : string) : string :=
  match s with
  | EmptyString => EmptyString
  | String c s' =>
      if Ascii.eqb c dquote then String dquote (String dquote (double_quotes s'))
      else String c (double_quotes s')
  end.

Definition csv_field (s : string) : string :=
  if any_char needs_quoting s then
    String dquote (double_quotes s ++ String dquote EmptyString)
  else s.

Fixpoint join (sep : string) (l : list string) : string :=
  match l with
  | [] => EmptyString
  | [x] => x
  | x :: l' => x ++ sep ++ join sep l'
  end.

(** One record of text fields, as the writer lays it out; a record made of
    a single empty field is written as two quotes. *)
Definition csv_record (fields : list string) : string :=
  match fields with
  | [field] =>
      match field with
      | EmptyString => String dquote (String dquote CRLF)
      | _ => csv_field field ++ CRLF
      end
  | _ => join "," (map csv_field fields) ++ CRLF
  end.

(** [writer.writerow(fields)] *)
Definition writer_writerow (fields : list pyval) : string :=
  csv_record (map csv_str fields).

(** [DictWriter._dict_to_list]: a key outside [fieldnames] is refused, a
    missing one is filled with the empty [restval]. *)
Definition dict_to_list (rowdict : list (string * pyval)) : py (list pyval) :=
  if forallb (fun kv => existsb (String.eqb (fst kv)) fieldnames) rowdict then
    Ok (map (fun key => dict_get String.eqb rowdict key (PyStr EmptyString))
            fieldnames)
  else Exc (mkExn ValueError "dict contains fields not in fieldnames").

Definition DictWriter_writerow (filename : string)
    (rowdict : list (string * pyval)) : M unit :=
  fields <- call (dict_to_list rowdict) ;;
  emit (EWrite filename (writer_writerow fields)).

Definition DictWriter_writeheader (filename : string) : M unit :=
  DictWriter_writerow filename (combine fieldnames (map PyStr fieldnames)).

(** The row built from one element of [open_ports]. *)
Definition row_of_entry (r : entry) : py (list (string * pyval)) :=
  match r with
  | ETuple items =>
      match nth_error items 0 with
      | None => Exc (mkExn IndexError "tuple index out of range")
      | Some port =>
          let service :=
            if (1 <? List.length items)%nat then nth 1 items PyNone
            else PyNone in
          Ok [("port", port); ("service", service); ("banner", PyStr EmptyString)]
      end
  | EDict d =>
      Ok [("port", dict_get String.eqb d "port" PyNone);
          ("service", dict_get String.eqb d "service" PyNone);
          ("banner", dict_get String.eqb d "banner" (PyStr EmptyString))]
  | EOther repr =>
      Ok [("port", PyNone); ("service", PyStr repr); ("banner", PyStr EmptyString)]
  end.

Fixpoint for_M {A} (f : A -> M unit) (l : list A) : M unit :=
  match l with
  | [] => ret tt
  | x :: l' => f x ;;; for_M f l'
  end.

Definition truthy (s : option string) : bool :=
  match s with
  | None => false
  | Some EmptyString => false
  | Some _ => true
  end.

(** [PortScanner.save_results] *)
Definition save_results (w : World) (self : PortScanner)
    (filename : option string) (fmt : string) : M unit :=
  match filename with
  | None => ret tt
  | Some EmptyString => ret tt
  | Some filename =>
      let fmt := lower fmt in
      if String.eqb fmt "json" then
        call (open_file w filename) ;;;
        emit (EWrite filename (json_dump w (open_ports self))) ;;;
        emit (ELogInfo ("Résultats sauvegardés en JSON -> " ++ filename))
      else if String.eqb fmt "csv" then
        call (open_file w filename) ;;;
        DictWriter_writeheader filename ;;;
        for_M (fun r => row <- call (row_of_entry r) ;;
                        DictWriter_writerow filename row)
              (open_ports self) ;;;
        emit (ELogInfo ("Résultats sauvegardés en CSV -> " ++ filename))
      else
        emit (ELogWarning "Format inconnu pour la sauvegarde. Utilise json/csv.")
  end.

(** The text that a trace leaves in a file. *)
Fixpoint file_content (filename : string) (t : list event) : string :=
  match t with
  | [] => EmptyString
  | EWrite f chunk :: t' =>
      if String.eqb f filename then chunk ++ file_content filename t'
      else file_content filename t'
  | _ :: t' => file_content filename t'
  end.

(** ** main *)

Record Args : Type := mkArgs {
  arg_target : string;
  arg_ports : string;
  arg_threads : Z;
  arg_timeout : pyfloat;
  arg_output : option string;
  arg_format : string
}.

(** The command line that gives only the target. *)
Definition default_args (target : string) : Args :=
  mkArgs target "1-1024" 10 2%Q None "json".

Definition set_target (self : PortScanner) (ip : string) : PortScanner :=
  mkScanner ip (threads self) (timeout self) (open_ports self).

Definition main (w : World) (sched : list nat) (args : Args) : M PortScanner :=
  emit (EPrint ("[*] Démarrage du scan sur " ++ arg_target args)) ;;;
  let scanner :=
    PortScanner_init (arg_target args) (arg_threads args) (arg_timeout args) in
  resolved_target <- resolve_target w scanner ;;
  match resolved_target with
  | None => ret scanner
  | Some EmptyString => ret scanner
  | Some ip =>
      let scanner := set_target scanner ip in
      scanner <- port_scan w sched scanner (arg_ports args) ;;
      emit (EPrint (String LF ("[o] Scan terminé en " ++ elapsed w ++ " secondes"))) ;;;
      emit (EPrint ("[+] " ++ str_of_int (Z.of_nat (List.length (open_ports scanner)))
                    ++ " ports ouverts trouvés")) ;;;
      (if truthy (arg_output args) then
         save_results w scanner (arg_output args) (arg_format args)
       else ret tt) ;;;
      ret scanner
  end.

(** ** The pool at work

    The run of the executor during [port_scan], as a transition system.
    The coordinator submits the ports one after the other; [submit] queues
    the task and starts a worker thread when the pool holds fewer than
    [max_workers] of them (and no idle worker answered first); a worker
    takes the task at the head of the queue, runs the probe, and becomes
    idle again when the probe returns. *)

Record scan_state : Type := mkState {
  to_submit : list Z;
  executor : pool
}.

Inductive action : Type :=
| Submit (idle_acquired : bool)   (* executor.submit(self.scan_port, port) *)
| Take (i : nat)                  (* worker i takes a task from the queue *)
| Finish (i : nat).               (* the probe run by worker i returns *)

Fixpoint update {A} (i : nat) (x : A) (l : list A) : list A :=
  match l, i with
  | [], _ => []
  | _ :: l', O => x :: l'
  | y :: l', S j => y :: update j x l'
  end.

(** [ThreadPoolExecutor._adjust_thread_count] *)
Definition adjust_thread_count (idle_acquired : bool) (p : pool) : pool :=
  if idle_acquired then p
  else if (Z.of_nat (List.length (workers p)) <? max_workers p)%Z then
    mkPool (max_workers p) (workers p ++ [None])%list (work_queue p) (finished p)
  else p.

(** [ThreadPoolExecutor.submit] *)
Definition submit (idle_acquired : bool) (port : Z) (p : pool) : pool :=
  adjust_thread_count idle_acquired
    (mkPool (max_workers p) (workers p) (work_queue p ++ [port])%list (finished p)).

Definition step (a : action) (st : scan_state) : option scan_state :=
  let p := executor st in
  match a with
  | Submit idle_acquired =>
      match to_submit st with
      | port :: rest => Some (mkState rest (submit idle_acquired port p))
      | [] => None
      end
  | Take i =>
      match nth_error (workers p) i, work_queue p with
      | Some None, port :: q =>
          Some (mkState (to_submit st)
                  (mkPool (max_workers p) (update i (Some port) (workers p))
                          q (finished p)))
      | _, _ => None
      end
  | Finish i =>
      match nth_error (workers p) i with
      | Some (Some port) =>
          Some (mkState (to_submit st)
                  (mkPool (max_workers p) (update i None (workers p))
                          (work_queue p) (finished p ++ [port])%list))
      | _ => None
      end
  end.

Fixpoint run (acts : list action) (st : scan_state) : option scan_state :=
  match acts with
  | [] => Some st
  | a :: acts' =>
      match step a st with
      | Some st' => run acts' st'
      | None => None
      end
  end.

(** The state in which [port_scan] enters its dict comprehension. *)
Definition scan_start (w : World) (self : PortScanner) (port_range : string)
    : py scan_state :=
  match parse_port_range w port_range with
  | Ok (start_port, end_port) =>
      match ThreadPoolExecutor (threads self) with
      | Ok pool => Ok (mkState (range start_port (end_port + 1)) pool)
      | Exc e => Exc e
      end
  | Exc e => Exc e
  end.

Definition running (w : option Z) : list Z :=
  match w with
  | Some port => [port]
  | None => []
  end.

(** The probes in flight: the ports that some worker is probing. *)
Definition in_flight (p : pool) : list Z := flat_map running (workers p).

(** Every task of the scan, wherever it stands: not yet submitted, queued,
    in flight or finished. *)
Definition tasks (st : scan_state) : list Z :=
  (to_submit st ++ work_queue (executor st) ++ in_flight (executor st)
   ++ finished (executor st))%list.

(** The run in which one worker probes the ports one after the other: the
    first submission starts the worker, the later ones find it idle. *)
Definition one_by_one (idle_acquired : bool) (ports : list Z) : list action :=
  match ports with
  | [] => []
  | _ :: rest =>
      ([Submit idle_acquired; Take O; Finish O]
       ++ flat_map (fun _ => [Submit true; Take O; Finish O]) rest)%list
  end.

(** ** Vocabulary of the properties *)

(** No socket is opened and no connection attempted in this trace. *)
Definition is_probe_event (e : event) : bool :=
  match e with
  | ESocket _ | EConnect _ _ => true
  | _ => false
  end.

Definition no_probe (t : list event) : Prop :=
  forall e, In e t -> is_probe_event e = false.

Definition is_lookup_event (e : event) : bool :=
  match e with
  | ELookup _ => true
  | _ => false
  end.

Definition no_lookup (t : list event) : Prop :=
  forall e, In e t -> is_lookup_event e = false.

(** A decimal number of one to three digits, at most 255. *)
Definition octet (s : string) : bool :=
  ascii_isdigit s && (String.length s <=? 3)%nat &&
  match int_unsigned s with
  | Some v => (v <=? 255)%Z
  | None => false
  end.

(** A literal IPv4 address in dotted-quad notation. *)
Definition valid_ipv4 (s : string) : bool :=
  match split "." s with
  | [a; b; c; d] => octet a && octet b && octet c && octet d
  | _ => false
  end.

Definition digit_or_dot (c : ascii) : bool :=
  is_ascii_digit c || Ascii.eqb c ".".

Fixpoint all_chars (f : ascii -> bool) (s : string) : bool :=
  match s with
  | EmptyString => true
  | String c s' => f c && all_chars f s'
  end.

Definition is_ok {A} (r : py A) : bool :=
  match r with
  | Ok _ => true
  | Exc _ => false
  end.

(** The expression is two texts that [int] reads, around one hyphen. *)
Definition two_int_literals (w : World) (port_range : string) : bool :=
  match split "-" port_range with
  | [a; b] => is_ok (int_of_str w a) && is_ok (int_of_str w b)
  | _ => false
  end.

Definition raises {A} (m : M A) (c : exn_class) : Prop :=
  exists msg, outcome m = Exc (mkExn c msg).

(** The number of lines of a text: its line feeds. *)
Fixpoint count_lines (s : string) : nat :=
  match s with
  | EmptyString => O
  | String c s' => ((if Ascii.eqb c LF then 1 else 0) + count_lines s')%nat
  end.

Definition is_newline (c : ascii) : bool := Ascii.eqb c CR || Ascii.eqb c LF.

(** What the probe of a port returns; [scan_port] never raises. *)
Definition probe_result (w : World) (self : PortScanner) (port : Z)
    : Z * option string * string :=
  match outcome (scan_port w self port) with
  | Ok r => r
  | Exc e => (port, None, "erreur: " ++ exn_msg e)
  end.

(** What the collecting loop keeps of one probe result. *)
Definition kept (r : Z * option string * string) : list entry :=
  let '(port, service, status) := r in
  if String.eqb status "ouvert" then [ETuple [PyInt port; pyval_of_option service]]
  else [].

(** The result entry of an open port. *)
Definition pair_entry (r : Z * string) : entry :=
  ETuple [PyInt (fst r); PyStr (snd r)].

(** Error numbers returned by [connect_ex] on Linux. *)
Definition ECONNREFUSED : Z := 111.
Definition EWOULDBLOCK : Z := 11.
Definition ETIMEDOUT : Z := 110.

(** What a trace did, by kind of event: the ports whose socket it opened
    and closed, the connections it attempted, the names it looked up, the
    files it wrote to. *)
Definition socket_of (e : event) : list Z :=
  match e with
  | ESocket port => [port]
  | _ => []
  end.

Definition close_of (e : event) : list Z :=
  match e with
  | EClose port => [port]
  | _ => []
  end.

Definition connect_of (e : event) : list (string * Z) :=
  match e with
  | EConnect host port => [(host, port)]
  | _ => []
  end.

Definition lookup_of (e : event) : list string :=
  match e with
  | ELookup host => [host]
  | _ => []
  end.

Definition write_of (e : event) : list string :=
  match e with
  | EWrite filename _ => [filename]
  | _ => []
  end.

Definition sockets_opened (t : list event) : list Z := flat_map socket_of t.
Definition sockets_closed (t : list event) : list Z := flat_map close_of t.
Definition connections (t : list event) : list (string * Z) := flat_map connect_of t.
Definition lookups (t : list event) : list string := flat_map lookup_of t.
Definition files_written (t : list event) : list string := flat_map write_of t.

(** The trace only prints. *)
Definition only_prints (t : list event) : Prop :=
  forall e, In e t -> exists msg, e = EPrint msg.

(** The trace only writes to the file and logs. *)
Definition only_saves (filename : string) (t : list event) : Prop :=
  forall e, In e t ->
    (exists chunk, e = EWrite filename chunk) \/
    (exists msg, e = ELogInfo msg) \/ (exists msg, e = ELogWarning msg).

(** The socket can be created and takes the timeout: the probe of the port
    reaches its connection attempt. *)
Definition reaches_connect (w : World) (self : PortScanner) (port : Z) : bool :=
  is_ok (socket_new w port) && is_ok (settimeout w (timeout self)).

(** The character is not the separator. *)
Definition is_not (sep : ascii) (c : ascii) : bool := negb (Ascii.eqb c sep).

(** An event that a scan of the host can emit: a printed line, or a step
    of a probe, whose connection goes to the host. *)
Definition scan_event (host : string) (e : event) : bool :=
  match e with
  | EPrint _ | ESocket _ | EClose _ | EServ _ => true
  | EConnect h _ => String.eqb h host
  | _ => false
  end.

(** The scanner that [main] builds from its arguments. *)
Definition scanner_of (args : Args) : PortScanner :=
  PortScanner_init (arg_target args) (arg_threads args) (arg_timeout args).

(** ** A sample world

    A host that answers on ports 22, 80 and 8080, drops what is sent to
    port 23, refuses the rest, and whose service database only knows ssh.
    The interpreter knows no digit and no blank outside ASCII, converts 4300
    digits at most, and its worker threads run one after the other. *)
Definition lab_world : World :=
  mkWorld
    (fun host =>
       if String.eqb host "scanme.lab" then Ok "10.0.0.7"
       else Exc (mkExn Gaierror "[Errno -2] Name or service not known"))
    (fun port => Ok tt)
    (fun t host port =>
       if (port <? 0)%Z || (65535 <? port)%Z then
         Exc (mkExn OverflowError "connect_ex(): port must be 0-65535.")
       else if (port =? 22)%Z || (port =? 80)%Z || (port =? 8080)%Z then Ok 0%Z
       else if (port =? 23)%Z then Ok EWOULDBLOCK
       else Ok ECONNREFUSED)
    (fun port =>
       if (port =? 22)%Z then Ok "ssh"
       else Exc (mkExn OSError "port/proto not found"))
    (fun filename => Ok tt)
    (fun entries => "[]")
    "0.42"
    (fun text => false)
    (fun run => None)
    4300
    (fun q => negb (Qle_bool q 9223372036) || negb (Qle_bool (-9223372036) q))
    [].

Definition lab_scanner : PortScanner := PortScanner_init "10.0.0.7" 4 2%Q.

(** The same world, seen from a resolver that refuses a name with an empty
    label before any query is sent, and whose two threads take turns. *)
Definition strict_world : World :=
  mkWorld
    (fun host =>
       if String.eqb host "a..b" then
         Exc (mkExn UnicodeError
                "encoding with 'idna' codec failed (UnicodeError: label empty or too long)")
       else gethostbyname lab_world host)
    (socket_new lab_world) (connect_ex lab_world) (getservbyport lab_world)
    (open_file lab_world) (json_dump lab_world) (elapsed lab_world)
    (unicode_isdigit lab_world) (unicode_int_chars lab_world)
    (int_max_str_digits lab_world) (timeout_overflows lab_world)
    [1; 0; 1; 0; 1; 0; 1; 0]%nat.

(** * Properties *)

(** ** The monad *)

Lemma bind_ok {A B} (t : list event) (a : A) (f : A -> M B) :
  bind (t, Ok a) f = ((t ++ trace (f a))%list, outcome (f a)).
Proof. unfold bind, trace, outcome. destruct (f a); reflexivity. Qed.

Lemma bind_exc {A B} (t : list event) (e : exn) (f : A -> M B) :
  bind (t, Exc e) f = (t, Exc e).
Proof. reflexivity. Qed.

Lemma trace_bind_incl {A B} (m : M A) (f : A -> M B) :
  incl (trace m) (trace (bind m f)).
Proof.
  destruct m as [t [a | e]].
  - rewrite bind_ok. cbn. apply incl_appl, incl_refl.
  - rewrite bind_exc. apply incl_refl.
Qed.

Lemma no_probe_nil : no_probe [].
Proof. intros e []. Qed.

Lemma no_probe_app (t1 t2 : list event) :
  no_probe t1 -> no_probe t2 -> no_probe (t1 ++ t2).
Proof.
  intros H1 H2 e He. apply in_app_or in He. destruct He; auto.
Qed.

Lemma no_probe_cons (e : event) (t : list event) :
  is_probe_event e = false -> no_probe t -> no_probe (e :: t).
Proof.
  intros He Ht x [<- | Hx]; auto.
Qed.

(** ** Strings *)

Lemma string_app_assoc (a b c : string) : (a ++ b) ++ c = a ++ (b ++ c).
Proof.
  induction a as [| x a IH]; cbn; [reflexivity | now rewrite IH].
Qed.

Lemma split_not_nil (sep : ascii) (s : string) : split sep s <> [].
Proof.
  destruct s as [| c s]; cbn.
  - discriminate.
  - destruct (Ascii.eqb c sep); [discriminate |].
    destruct (split sep s); discriminate.
Qed.

(** Erasing the separators is gluing the pieces of the split. *)
Lemma replace_split (sep : ascii) (s : string) :
  replace sep EmptyString s = fold_right append EmptyString (split sep s).
Proof.
  induction s as [| c s IH]; cbn.
  - reflexivity.
  - destruct (Ascii.eqb c sep); cbn.
    + exact IH.
    + rewrite IH. destruct (split sep s) as [| p ps] eqn:E.
      * now apply split_not_nil in E.
      * reflexivity.
Qed.

Lemma all_digits_app (a b : string) :
  all_digits (a ++ b) = all_digits a && all_digits b.
Proof.
  induction a as [| c a IH]; cbn.
  - reflexivity.
  - now rewrite IH, andb_assoc.
Qed.

Lemma isdigit_all_digits (s : string) :
  ascii_isdigit s = true -> all_digits s = true.
Proof. destruct s; [discriminate | trivial]. Qed.

Lemma isdigit_app (a b : string) :
  ascii_isdigit a = true -> all_digits b = true -> ascii_isdigit (a ++ b) = true.
Proof.
  destruct a as [| c a]; [discriminate |].
  cbn -[all_digits]. intros Ha Hb.
  change (all_digits (String c a ++ b) = true).
  now rewrite all_digits_app, Ha, Hb.
Qed.

(** Digits and dots, with a digit among them: what is left once the dots
    are erased passes [isdigit]. *)
Lemma replace_dots_all_digits (s : string) :
  all_chars digit_or_dot s = true ->
  all_digits (replace "." EmptyString s) = true.
Proof.
  induction s as [| c s IH]; cbn; [trivial |].
  intros H. apply andb_prop in H. destruct H as [Hc Hs].
  destruct (Ascii.eqb c ".") eqn:E; cbn.
  - auto.
  - unfold digit_or_dot in Hc. rewrite E, orb_false_r in Hc.
    now rewrite Hc, IH.
Qed.

Lemma replace_dots_isdigit (s : string) :
  all_chars digit_or_dot s = true ->
  any_char is_ascii_digit s = true ->
  ascii_isdigit (replace "." EmptyString s) = true.
Proof.
  induction s as [| c s IH]; cbn; [discriminate |].
  intros H Hd. apply andb_prop in H. destruct H as [Hc Hs].
  destruct (Ascii.eqb c ".") eqn:E; cbn.
  - apply Ascii.eqb_eq in E. subst c. cbn in Hd. auto.
  - unfold digit_or_dot in Hc. rewrite E, orb_false_r in Hc.
    rewrite Hc. cbn. now apply replace_dots_all_digits.
Qed.

(** ** The resolver on literals *)

Lemma all_digits_ascii_text (s : string) :
  all_digits s = true -> is_ascii_text s = true.
Proof.
  induction s as [| c s IH]; cbn; [trivial |].
  intros H. apply andb_prop in H. destruct H as [Hc Hs].
  rewrite (IH Hs), andb_true_r.
  unfold is_ascii_digit in Hc. apply andb_prop in Hc. destruct Hc as [_ Hc].
  apply Nat.leb_le in Hc. apply Nat.leb_le. lia.
Qed.

(** On ASCII digits the Unicode database is not consulted. *)
Lemma ascii_isdigit_isdigit (w : World) (s : string) :
  ascii_isdigit s = true -> isdigit w s = true.
Proof.
  intros H. unfold isdigit.
  now rewrite (all_digits_ascii_text s (isdigit_all_digits s H)).
Qed.

Lemma resolve_target_literal (w : World) (self : PortScanner) :
  isdigit w (replace "." EmptyString (target self)) = true ->
  resolve_target w self = ([], Ok (Some (target self))).
Proof.
  intros H. unfold resolve_target. rewrite H. reflexivity.
Qed.

Lemma octet_all_digits (s : string) : octet s = true -> ascii_isdigit s = true.
Proof.
  unfold octet. intros H.
  apply andb_prop in H. destruct H as [H _].
  apply andb_prop in H. now destruct H.
Qed.

Lemma valid_ipv4_isdigit (s : string) :
  valid_ipv4 s = true -> ascii_isdigit (replace "." EmptyString s) = true.
Proof.
  unfold valid_ipv4. rewrite replace_split.
  destruct (split "." s) as [| a [| b [| c [| d [| x l]]]]]; try discriminate.
  intros H.
  apply andb_prop in H. destruct H as [H Hd].
  apply andb_prop in H. destruct H as [H Hc].
  apply andb_prop in H. destruct H as [Ha Hb].
  apply octet_all_digits in Ha, Hb, Hc, Hd.
  cbn [fold_right].
  apply isdigit_app; [exact Ha |].
  rewrite !all_digits_app.
  now rewrite (isdigit_all_digits _ Hb), (isdigit_all_digits _ Hc),
    (isdigit_all_digits _ Hd).
Qed.

(** C6. For every valid literal IPv4 address given as the host identifier,
    the resolver returns that address unchanged, and its trace is empty: no
    name lookup is performed (nor anything printed). *)
Theorem resolve_target_ipv4_unchanged (w : World) (self : PortScanner) :
  valid_ipv4 (target self) = true ->
  resolve_target w self = ([], Ok (Some (target self))) /\
  no_lookup (trace (resolve_target w self)).
Proof.
  intros H. apply valid_ipv4_isdigit in H.
  rewrite (resolve_target_literal w self (ascii_isdigit_isdigit w _ H)).
  split; [reflexivity |].
  intros e [].
Qed.

Lemma resolve_target_ipv4_unchanged_witness :
  resolve_target lab_world lab_scanner = ([], Ok (Some "10.0.0.7")) /\
  no_lookup (trace (resolve_target lab_world lab_scanner)).
Proof.
  apply (resolve_target_ipv4_unchanged lab_world lab_scanner). reflexivity.
Defined.

(** C10, as stated, fails on an identifier made of dots only: nothing is
    left for [isdigit] once the dots are erased, so the name is looked up. *)
Lemma dots_only_is_looked_up :
  all_chars digit_or_dot "..." = true /\
  resolve_target lab_world (PortScanner_init "..." 10 2%Q) =
    ([ELookup "..."; EPrint "[-] Impossible de résoudre ..."], Ok None).
Proof. split; reflexivity. Qed.

(** C10, amended. For every host identifier composed only of decimal digits
    and dots and holding at least one digit, valid IPv4 address or not, the
    resolver returns it unchanged, with no validation and no name lookup. *)
Theorem resolve_target_digits_and_dots (w : World) (self : PortScanner) :
  all_chars digit_or_dot (target self) = true ->
  any_char is_ascii_digit (target self) = true ->
  resolve_target w self = ([], Ok (Some (target self))) /\
  no_lookup (trace (resolve_target w self)).
Proof.
  intros H1 H2.
  rewrite (resolve_target_literal w self
             (ascii_isdigit_isdigit w _ (replace_dots_isdigit _ H1 H2))).
  split; [reflexivity | intros e []].
Qed.

Lemma resolve_target_digits_and_dots_witness :
  resolve_target lab_world (PortScanner_init "999.999.999.999" 10 2%Q) =
    ([], Ok (Some "999.999.999.999")) /\
  no_lookup (trace (resolve_target lab_world
                      (PortScanner_init "999.999.999.999" 10 2%Q))).
Proof.
  apply (resolve_target_digits_and_dots lab_world
           (PortScanner_init "999.999.999.999" 10 2%Q)); reflexivity.
Defined.

(** ** The resolver on names *)

Lemma resolve_target_lookup (w : World) (self : PortScanner) :
  isdigit w (replace "." EmptyString (target self)) = false ->
  resolve_target w self =
    match gethostbyname w (target self) with
    | Ok ip =>
        ([ELookup (target self);
          EPrint ("[+] " ++ target self ++ " résolu en " ++ ip)], Ok (Some ip))
    | Exc e =>
        if catch_gaierror (exn_cls e) then
          ([ELookup (target self);
            EPrint ("[-] Impossible de résoudre " ++ target self)], Ok None)
        else ([ELookup (target self)], Exc e)
    end.
Proof.
  intros H. unfold resolve_target. rewrite H. cbn.
  destruct (gethostbyname w (target self)) as [ip | e]; cbn.
  - reflexivity.
  - destruct (catch_gaierror (exn_cls e)); reflexivity.
Qed.




(** ** The service classifier *)

Lemma get_service_name_cases (w : World) (port : Z) :
  get_service_name w port =
    ([EServ port],
     Ok match getservbyport w port with
        | Ok name => name
        | Exc _ => dict_get Z.eqb common_services port "Inconnu"
        end).
Proof.
  unfold get_service_name. cbn.
  destruct (getservbyport w port); reflexivity.
Qed.

(** C4. For every port number the classifier returns a label and never
    fails.  When the lookup in the service database of the system fails, the
    label is the one of the static table for each of its 14 ports, and the
    sentinel of the source, ['Inconnu'] (unknown), for every other port. *)
Theorem get_service_name_total (w : World) (port : Z) :
  exists label : string,
    outcome (get_service_name w port) = Ok label /\
    (is_ok (getservbyport w port) = false ->
     (forall name,
        In (port, name)
           [(21, "FTP"); (22, "SSH"); (23, "Telnet"); (25, "SMTP");
            (53, "DNS"); (80, "HTTP"); (110, "POP3"); (143, "IMAP");
            (443, "HTTPS"); (993, "IMAPS"); (995, "POP3S");
            (3306, "MySQL"); (5432, "PostgreSQL"); (3389, "RDP")] ->
        label = name) /\
     (~ In port [21; 22; 23; 25; 53; 80; 110; 143; 443; 993; 995;
                 3306; 5432; 3389] ->
      label = "Inconnu")).
Proof.
  rewrite get_service_name_cases. cbn [outcome snd].
  eexists. split; [reflexivity |].
  destruct (getservbyport w port) as [name | e]; cbn [is_ok]; [discriminate |].
  intros _. split.
  - intros name H. cbn in H.
    repeat (destruct H as [H | H]; [injection H as <- <-; reflexivity |]).
    destruct H.
  - intros H. cbn in H. unfold common_services. cbn [dict_get].
    repeat match goal with
    | |- context [Z.eqb ?a port] =>
        destruct (Z.eqb_spec a port) as [Heq | _]; [exfalso; apply H; tauto |]
    end.
    reflexivity.
Qed.

Lemma get_service_name_total_witness :
  exists label : string,
    outcome (get_service_name lab_world 443) = Ok label /\ label = "HTTPS".
Proof.
  destruct (get_service_name_total lab_world 443) as [label [H1 H2]].
  exists label. split; [exact H1 |].
  destruct (H2 eq_refl) as [H3 _]. apply H3. cbn. tauto.
Defined.

(** ** The prober *)

Lemma scan_port_cases (w : World) (self : PortScanner) (port : Z) :
  scan_port w self port =
    match socket_new w port with
    | Exc e => ([], Ok (port, None, "erreur: " ++ exn_msg e))
    | Ok _ =>
        match settimeout w (timeout self) with
        | Exc e =>
            ([ESocket port; EClose port],
             Ok (port, None, "erreur: " ++ exn_msg e))
        | Ok _ =>
            match connect_ex w (timeout self) (target self) port with
            | Exc e =>
                ([ESocket port; EConnect (target self) port; EClose port],
                 Ok (port, None, "erreur: " ++ exn_msg e))
            | Ok result =>
                if (result =? 0)%Z then
                  ([ESocket port; EConnect (target self) port; EServ port;
                    EClose port],
                   Ok (port,
                       Some match getservbyport w port with
                            | Ok name => name
                            | Exc _ => dict_get Z.eqb common_services port "Inconnu"
                            end,
                       "ouvert"))
                else
                  ([ESocket port; EConnect (target self) port; EClose port],
                   Ok (port, None, "fermé"))
            end
        end
    end.
Proof.
  unfold scan_port.
  destruct (socket_new w port) as [u | e]; [| reflexivity].
  destruct (settimeout w (timeout self)) as [u' | e]; [| reflexivity].
  destruct (connect_ex w (timeout self) (target self) port) as [result | e];
    [| reflexivity].
  cbn -[get_service_name]. destruct (result =? 0)%Z; [| reflexivity].
  rewrite get_service_name_cases. reflexivity.
Qed.

(** A probe always returns, and returns a result tagged with its port. *)
Lemma scan_port_returns (w : World) (self : PortScanner) (port : Z) :
  exists t service status,
    scan_port w self port = (t, Ok (port, service, status)).
Proof.
  rewrite scan_port_cases.
  destruct (socket_new w port); [| eauto].
  destruct (settimeout w (timeout self)); [| eauto].
  destruct (connect_ex w (timeout self) (target self) port) as [r | e]; [| eauto].
  destruct (r =? 0)%Z; eauto.
Qed.

Lemma scan_port_probe_result (w : World) (self : PortScanner) (port : Z) :
  outcome (scan_port w self port) = Ok (probe_result w self port).
Proof.
  unfold probe_result.
  destruct (scan_port_returns w self port) as [t [sv [st H]]].
  rewrite H. reflexivity.
Qed.

(** The status is "ouvert" exactly when the connection succeeded, and the
    result then carries a service name. *)
Lemma scan_port_open_iff (w : World) (self : PortScanner) (port : Z)
    (service : option string) :
  outcome (scan_port w self port) = Ok (port, service, "ouvert") ->
  connect_ex w (timeout self) (target self) port = Ok 0%Z /\
  exists name, service = Some name.
Proof.
  rewrite scan_port_cases.
  destruct (socket_new w port); [| discriminate].
  destruct (settimeout w (timeout self)); [| discriminate].
  destruct (connect_ex w (timeout self) (target self) port) as [r | e];
    [| discriminate].
  destruct (Z.eqb_spec r 0) as [-> | Hr]; [| discriminate].
  cbn. intros H. injection H as <-. eauto.
Qed.

Lemma kept_probe_result (w : World) (self : PortScanner) (port : Z) (e : entry) :
  In e (kept (probe_result w self port)) <->
  exists name,
    e = ETuple [PyInt port; PyStr name] /\
    outcome (scan_port w self port) = Ok (port, Some name, "ouvert").
Proof.
  rewrite scan_port_probe_result.
  destruct (scan_port_returns w self port) as [t [sv [st H]]].
  unfold probe_result. rewrite H. cbn [outcome snd kept].
  destruct (String.eqb_spec st "ouvert") as [-> | Hst].
  - destruct (scan_port_open_iff w self port sv) as [_ [name ->]].
    { rewrite H. reflexivity. }
    cbn. split.
    + intros [<- | []]. eauto.
    + intros [name' [-> Heq]]. injection Heq as <-. now left.
  - split; [intros [] |].
    intros [name [_ Heq]]. injection Heq as _ Hs. contradiction.
Qed.

(** ** The coordinator *)

Lemma in_range (a b p : Z) : In p (range a b) <-> (a <= p < b)%Z.
Proof.
  unfold range. rewrite in_map_iff. split.
  - intros [i [<- Hi]]. apply in_seq in Hi. lia.
  - intros H. exists (Z.to_nat (p - a)). split; [lia |].
    apply in_seq. lia.
Qed.

Lemma NoDup_range (a b : Z) : NoDup (range a b).
Proof.
  unfold range. apply Finite.Injective_map_NoDup.
  - intros i j H. lia.
  - apply seq_NoDup.
Qed.

Lemma range_empty (a b : Z) : (b <= a)%Z -> range a b = [].
Proof.
  intros H. unfold range. replace (Z.to_nat (b - a)) with O by lia. reflexivity.
Qed.

Lemma pick_perm {A} (i : nat) (l : list A) (y : A) (r : list A) :
  pick i l = Some (y, r) -> Permutation l (y :: r).
Proof.
  revert i y r. induction l as [| x l IH]; intros i y r H.
  - destruct i; discriminate.
  - destruct i as [| j]; cbn in H.
    + injection H as <- <-. apply Permutation_refl.
    + destruct (pick j l) as [[y' r'] |] eqn:E; [| discriminate].
      injection H as <- <-.
      apply perm_trans with (x :: y' :: r').
      * apply perm_skip. now apply IH with j.
      * apply perm_swap.
Qed.

Lemma pick_some {A} (i : nat) (l : list A) :
  (i < List.length l)%nat -> exists y r, pick i l = Some (y, r).
Proof.
  revert i. induction l as [| x l IH]; intros i H; cbn in H; [lia |].
  destruct i as [| j]; cbn.
  - eauto.
  - destruct (IH j) as [y [r E]]; [lia |]. rewrite E. eauto.
Qed.

Lemma drain_perm {A} (n : nat) (sched : list nat) (l : list A) :
  List.length l = n -> Permutation (drain n sched l) l.
Proof.
  revert sched l. induction n as [| n IH]; intros sched l Hn.
  - destruct l; [apply perm_nil | discriminate].
  - cbn [drain].
    destruct (pick_some (Nat.modulo (hd O sched) (List.length l)) l)
      as [y [r E]].
    { apply Nat.mod_upper_bound. lia. }
    rewrite E. assert (Hp := pick_perm _ _ _ _ E).
    apply perm_trans with (y :: r); [| now apply Permutation_sym].
    apply perm_skip. apply IH.
    apply Permutation_length in Hp. cbn in Hp. lia.
Qed.

(** Whatever the schedule, [as_completed] yields each future exactly once. *)
Lemma as_completed_perm {A} (sched : list nat) (fs : list A) :
  Permutation (as_completed sched fs) fs.
Proof. now apply drain_perm. Qed.

Lemma pick_in {A} (y : A) (l : list A) :
  In y l ->
  exists i r, (i < List.length l)%nat /\ pick i l = Some (y, r).
Proof.
  induction l as [| x l IH]; intros Hin; [destruct Hin |].
  destruct Hin as [-> | Hin].
  - exists O, l. cbn. split; [lia | reflexivity].
  - destruct (IH Hin) as [i [r [Hi Hp]]].
    exists (S i), (x :: r). cbn. rewrite Hp. split; [lia | reflexivity].
Qed.

(** Conversely every order of completion is the one of some schedule. *)
Lemma as_completed_any_order {A} (fs order : list A) :
  Permutation fs order -> exists sched, as_completed sched fs = order.
Proof.
  revert fs. induction order as [| y order IH]; intros fs Hperm.
  - apply Permutation_sym, Permutation_nil in Hperm. subst fs.
    exists []. reflexivity.
  - destruct (pick_in y fs) as [i [r [Hi Hp]]].
    { apply (Permutation_in _ (Permutation_sym Hperm)). now left. }
    assert (Hr := pick_perm _ _ _ _ Hp).
    destruct (IH r) as [sched Hs].
    { apply Permutation_cons_inv with y.
      apply perm_trans with fs; [now apply Permutation_sym | exact Hperm]. }
    exists (i :: sched). unfold as_completed.
    destruct fs as [| x fs]; [cbn in Hi; lia |].
    cbn [List.length drain hd tl].
    rewrite (Nat.mod_small i) by exact Hi. rewrite Hp.
    f_equal. rewrite <- Hs. unfold as_completed. f_equal.
    apply Permutation_length in Hr. cbn in Hr. lia.
Qed.

Lemma collect_cases (self : PortScanner) (port : Z) (service : option string)
    (status : string) :
  collect self (port, service, status) =
    if String.eqb status "ouvert" then
      ([EPrint ("[+] Port " ++ str_of_int port ++ " ouvert - "
                ++ str_of_option service)],
       Ok (append_open self (ETuple [PyInt port; pyval_of_option service])))
    else ([], Ok self).
Proof.
  unfold collect. destruct (String.eqb status "ouvert"); reflexivity.
Qed.

Lemma fold_M_collect (results : list (Z * option string * string))
    (self : PortScanner) :
  exists t,
    fold_M collect results self =
      (t, Ok (with_open_ports self (open_ports self ++ flat_map kept results))) /\
    no_probe t /\ (results = [] -> t = []).
Proof.
  revert self. induction results as [| [[port service] status] results IH];
    intros self.
  - exists []. cbn. rewrite app_nil_r. destruct self.
    repeat split. apply no_probe_nil.
  - cbn [fold_M flat_map kept]. rewrite collect_cases.
    destruct (String.eqb status "ouvert").
    + destruct (IH (append_open self
                      (ETuple [PyInt port; pyval_of_option service])))
        as [t [Ht [Hn _]]].
      rewrite bind_ok, Ht. cbn. rewrite <- app_assoc. eexists.
      split; [reflexivity |]. split; [| discriminate].
      apply no_probe_cons; [reflexivity | exact Hn].
    + destruct (IH self) as [t [Ht [Hn _]]].
      rewrite bind_ok, Ht. cbn. eexists.
      split; [reflexivity |]. split; [exact Hn | discriminate].
Qed.

(** *** Threads that run at the same time *)

Lemma take_event_perm (i : nat) (threads : list (list event)) (e : event)
    (threads' : list (list event)) :
  take_event i threads = Some (e, threads') ->
  Permutation (List.concat threads) (e :: List.concat threads').
Proof.
  revert i threads'. induction threads as [| t rest IH]; intros i threads' H.
  - discriminate.
  - cbn [take_event] in H. destruct t as [| e0 t].
    + destruct (take_event i rest) as [[e' rest'] |] eqn:E; [| discriminate].
      injection H as <- <-. cbn [List.concat app]. now apply IH with i.
    + destruct i as [| j].
      * injection H as <- <-. apply Permutation_refl.
      * destruct (take_event j rest) as [[e' rest'] |] eqn:E; [| discriminate].
        injection H as <- <-. cbn [List.concat].
        apply perm_trans with ((e0 :: t) ++ e' :: List.concat rest')%list.
        -- apply Permutation_app_head. now apply IH with j.
        -- apply Permutation_sym, Permutation_middle.
Qed.

Lemma take_event_some (i : nat) (threads : list (list event)) :
  (i < List.length (filter has_event threads))%nat ->
  exists e threads', take_event i threads = Some (e, threads').
Proof.
  revert i. induction threads as [| t rest IH]; intros i Hi.
  - cbn in Hi. lia.
  - cbn [take_event]. destruct t as [| e0 t].
    + cbn [filter has_event] in Hi.
      destruct (IH i Hi) as [e [rest' ->]]. eauto.
    + destruct i as [| j]; [eauto |].
      cbn [filter has_event List.length] in Hi.
      destruct (IH j) as [e [rest' ->]]; [lia | eauto].
Qed.

Lemma no_live_thread (threads : list (list event)) :
  filter has_event threads = [] -> forall t, In t threads -> t = [].
Proof.
  intros H t Ht. destruct t as [| e t]; [reflexivity |].
  assert (Hin : In (e :: t) (filter has_event threads))
    by (apply filter_In; split; [exact Ht | reflexivity]).
  rewrite H in Hin. destruct Hin.
Qed.

Lemma next_turn_events (threads : list (list event))
    (turns : list (nat * list event)) (e : event)
    (turns' : list (nat * list event)) :
  next_turn threads turns = Some (e, turns') ->
  List.concat (map snd turns) = e :: List.concat (map snd turns').
Proof.
  induction turns as [| [i t] turns IH]; cbn [next_turn]; [discriminate |].
  destruct (task_done threads i); [| discriminate].
  destruct t as [| e0 t].
  - intros H. cbn. now apply IH.
  - intros H. injection H as <- <-. reflexivity.
Qed.

(** When every task has returned, the loop does not wait. *)
Lemma next_turn_none (threads : list (list event))
    (turns : list (nat * list event)) :
  filter has_event threads = [] ->
  next_turn threads turns = None ->
  List.concat (map snd turns) = [].
Proof.
  intros Hlive. induction turns as [| [i t] turns IH]; cbn [next_turn];
    [reflexivity |].
  assert (Hd : task_done threads i = true).
  { unfold task_done. destruct (nth_error threads i) as [t0 |] eqn:E;
      [| reflexivity].
    apply nth_error_In in E. now rewrite (no_live_thread _ Hlive _ E). }
  rewrite Hd. destruct t as [| e0 t]; [| discriminate].
  intros H. cbn. now apply IH.
Qed.

Lemma interleave_perm (n : nat) (order : list nat)
    (threads : list (list event)) (turns : list (nat * list event)) :
  (List.length (List.concat threads)
   + List.length (List.concat (map snd turns)))%nat = n ->
  Permutation (interleave n order threads turns)
              (List.concat threads ++ List.concat (map snd turns)).
Proof.
  revert order threads turns.
  induction n as [| n IH]; intros order threads turns Hn.
  - assert (H1 : List.concat threads = [])
      by (apply length_zero_iff_nil; lia).
    assert (H2 : List.concat (map snd turns) = [])
      by (apply length_zero_iff_nil; lia).
    rewrite H1, H2. constructor.
  - cbn [interleave].
    set (live := List.length (filter has_event threads)).
    assert (Htask : forall k, (k < live)%nat ->
              Permutation
                match take_event k threads with
                | Some (e', threads') =>
                    e' :: interleave n (tl order) threads' turns
                | None => []
                end
                (List.concat threads ++ List.concat (map snd turns))).
    { intros k Hk.
      destruct (take_event_some k threads Hk) as [e' [threads' Ht]].
      rewrite Ht. assert (Hp := take_event_perm _ _ _ _ Ht).
      apply perm_trans
        with (e' :: List.concat threads' ++ List.concat (map snd turns)).
      - apply perm_skip, IH.
        apply Permutation_length in Hp. cbn in Hp. lia.
      - apply Permutation_sym.
        apply (Permutation_app_tail (List.concat (map snd turns))) in Hp.
        exact Hp. }
    destruct (next_turn threads turns) as [[e turns'] |] eqn:Eturn.
    + cbv zeta.
      destruct (Nat.ltb_spec (Nat.modulo (hd O order) (S live)) live) as [Hk | Hk].
      * apply Htask, Hk.
      * assert (He := next_turn_events _ _ _ _ Eturn). rewrite He.
        apply perm_trans
          with (e :: List.concat threads ++ List.concat (map snd turns')).
        -- apply perm_skip, IH. rewrite He in Hn. cbn in Hn. lia.
        -- apply Permutation_middle.
    + destruct live as [| m] eqn:El.
      * assert (Hnone : filter has_event threads = [])
          by (apply length_zero_iff_nil; exact El).
        assert (H2 := next_turn_none _ _ Hnone Eturn).
        assert (H1 : List.concat threads = []).
        { apply concat_nil_Forall, Forall_forall.
          intros t Ht. now apply (no_live_thread _ Hnone). }
        rewrite H1, H2 in Hn. discriminate.
      * apply Htask. apply Nat.mod_upper_bound. lia.
Qed.

(** However the threads get to run, every event of every thread happens,
    once. *)
Lemma run_threads_perm (order : list nat) (threads : list (list event))
    (turns : list (nat * list event)) :
  Permutation (run_threads order threads turns)
              (List.concat threads ++ List.concat (map snd turns)).
Proof. unfold run_threads. now apply interleave_perm. Qed.

Lemma turns_of_events {A S} (body : S -> A -> M S) (futures : list (nat * A))
    (s : S) :
  List.concat (map snd (turns_of body futures s)) =
    trace (fold_M body (map snd futures) s).
Proof.
  revert s. induction futures as [| [i x] futures IH]; intros s;
    [reflexivity |].
  cbn [turns_of map snd List.concat fold_M].
  destruct (body s x) as [t [s' | e]].
  - rewrite bind_ok. cbn [trace outcome fst snd]. now rewrite IH.
  - cbn. now rewrite app_nil_r.
Qed.

Lemma pick_map {A B} (f : A -> B) (i : nat) (l : list A) :
  pick i (map f l) =
    match pick i l with
    | Some (y, r) => Some (f y, map f r)
    | None => None
    end.
Proof.
  revert i. induction l as [| x l IH]; intros i; [destruct i; reflexivity |].
  destruct i as [| j]; cbn [map pick]; [reflexivity |].
  rewrite IH. destruct (pick j l) as [[y r] |]; reflexivity.
Qed.

Lemma drain_map {A B} (f : A -> B) (n : nat) (sched : list nat) (l : list A) :
  drain n sched (map f l) = map f (drain n sched l).
Proof.
  revert sched l. induction n as [| n IH]; intros sched l; [reflexivity |].
  cbn [drain]. rewrite length_map, pick_map.
  destruct (pick _ l) as [[y r] |]; [| reflexivity].
  cbn [map]. now rewrite IH.
Qed.

(** The futures come out of [as_completed] as their results would. *)
Lemma as_completed_futures {A} (sched : list nat) (results : list A) :
  map snd (as_completed sched
             (combine (seq 0 (List.length results)) results)) =
    as_completed sched results.
Proof.
  unfold as_completed. rewrite <- drain_map.
  assert (H : forall (l : list A) k,
            map snd (combine (seq k (List.length l)) l) = l).
  { induction l as [| x l IH]; intros k; [reflexivity |].
    cbn. now rewrite IH. }
  rewrite H, length_combine, length_seq, Nat.min_id. reflexivity.
Qed.

Lemma map_M_tasks (w : World) (self : PortScanner) (ports : list Z) :
  outcome (map_M (fun task => task) (map (scan_port w self) ports)) =
    Ok (map (probe_result w self) ports).
Proof.
  induction ports as [| p ports IH]; [reflexivity |].
  cbn [map map_M].
  destruct (scan_port_returns w self p) as [tp [sv [st Hp]]].
  assert (Hr : probe_result w self p = (p, sv, st)).
  { unfold probe_result. now rewrite Hp. }
  rewrite Hp, bind_ok, Hr.
  destruct (map_M (fun task => task) (map (scan_port w self) ports))
    as [t [l | e]]; cbn in IH; [| discriminate].
  injection IH as ->. reflexivity.
Qed.

(** The three ways [port_scan] can go.  When the probes run, the events
    after the banner are those of the probes and of the collecting loop, in
    the order in which the threads got to run. *)
Lemma port_scan_cases (w : World) (sched : list nat) (self : PortScanner)
    (port_range : string) :
  let banner :=
    EPrint ("[*] Scan des ports " ++ port_range ++ " sur " ++ target self) in
  match parse_port_range w port_range with
  | Exc e => port_scan w sched self port_range = ([banner], Exc e)
  | Ok (a, b) =>
      if (threads self <=? 0)%Z then
        port_scan w sched self port_range =
          ([banner], Exc (mkExn ValueError "max_workers must be greater than 0"))
      else
        exists t,
          port_scan w sched self port_range =
            (banner :: t,
             Ok (with_open_ports self
                   (open_ports self ++
                    flat_map kept
                      (as_completed sched
                         (map (probe_result w self) (range a (b + 1))))))) /\
          (range a (b + 1) = [] -> t = []) /\
          Permutation t
            (flat_map (fun p => trace (scan_port w self p)) (range a (b + 1)) ++
             trace (fold_M collect
                      (as_completed sched
                         (map (probe_result w self) (range a (b + 1)))) self))
  end.
Proof.
  intros banner. unfold port_scan. fold banner.
  destruct (parse_port_range w port_range) as [[a b] | e]; [| reflexivity].
  unfold ThreadPoolExecutor.
  destruct (threads self <=? 0)%Z; [reflexivity |].
  destruct (fold_M_collect
              (as_completed sched (map (probe_result w self) (range a (b + 1))))
              self) as [t2 [H2 _]].
  cbn [emit call bind app]. unfold concurrently.
  rewrite map_M_tasks. cbv zeta. rewrite as_completed_futures, H2.
  cbn [trace outcome fst snd app].
  eexists. split; [reflexivity |]. split.
  - intros Hr. rewrite Hr. reflexivity.
  - eapply perm_trans; [apply run_threads_perm |].
    rewrite turns_of_events, as_completed_futures, H2, map_map,
      <- flat_map_concat_map.
    apply Permutation_refl.
Qed.

Lemma int_of_str_exc (w : World) (s : string) (e : exn) :
  int_of_str w s = Exc e -> exn_cls e = ValueError.
Proof.
  unfold int_of_str.
  match goal with
  | |- match ?r with _ => _ end = _ -> _ => destruct r
  end; [discriminate |].
  intros H. injection H as <-. reflexivity.
Qed.

(** Anything but two texts that [int] reads, around one hyphen, is a
    [ValueError]. *)
Lemma parse_port_range_exc (w : World) (port_range : string) :
  two_int_literals w port_range = false ->
  exists msg, parse_port_range w port_range = Exc (mkExn ValueError msg).
Proof.
  unfold two_int_literals, parse_port_range.
  destruct (split "-" port_range) as [| x [| y [| z l]]]; cbn [map unpack2].
  - eauto.
  - destruct (int_of_str w x) as [a | [c m]] eqn:Ex; [eauto |].
    apply int_of_str_exc in Ex. cbn in Ex. subst c. eauto.
  - destruct (int_of_str w x) as [a | [c m]] eqn:Ex.
    + destruct (int_of_str w y) as [b | [c m]] eqn:Ey; [discriminate |].
      apply int_of_str_exc in Ey. cbn in Ey. subst c. eauto.
    + apply int_of_str_exc in Ex. cbn in Ex. subst c. eauto.
  - intros _.
    destruct (int_of_str w x) as [a | [c m]] eqn:Ex.
    + destruct (int_of_str w y) as [b | [c m]] eqn:Ey.
      * destruct (int_of_str w z) as [d | [c m]] eqn:Ez; [eauto |].
        apply int_of_str_exc in Ez. cbn in Ez. subst c. eauto.
      * apply int_of_str_exc in Ey. cbn in Ey. subst c. eauto.
    + apply int_of_str_exc in Ex. cbn in Ex. subst c. eauto.
Qed.

Lemma parse_port_range_ok (w : World) (port_range : string) :
  two_int_literals w port_range = true ->
  exists a b, parse_port_range w port_range = Ok (a, b).
Proof.
  unfold two_int_literals, parse_port_range.
  destruct (split "-" port_range) as [| x [| y [| z l]]]; try discriminate.
  cbn [map unpack2].
  destruct (int_of_str w x); [| discriminate].
  destruct (int_of_str w y); [| discriminate]. eauto.
Qed.

(** A scan that completes parsed its range, had a pool, and appended what
    the collecting loop kept. *)
Lemma port_scan_completed (w : World) (sched : list nat) (self : PortScanner)
    (port_range : string) (t : list event) (self' : PortScanner) :
  port_scan w sched self port_range = (t, Ok self') ->
  exists a b,
    parse_port_range w port_range = Ok (a, b) /\
    (0 < threads self)%Z /\
    self' = with_open_ports self
              (open_ports self ++
               flat_map kept
                 (as_completed sched
                    (map (probe_result w self) (range a (b + 1))))).
Proof.
  intros H. assert (C := port_scan_cases w sched self port_range). cbn zeta in C.
  destruct (parse_port_range w port_range) as [[a b] | e].
  - destruct (Z.leb_spec (threads self) 0).
    + rewrite C in H. discriminate.
    + destruct C as [t' [C _]]. rewrite C in H. injection H as _ <-.
      exists a, b. auto.
  - rewrite C in H. discriminate.
Qed.

Lemma in_kept_results (w : World) (sched : list nat) (self : PortScanner)
    (ports : list Z) (e : entry) :
  In e (flat_map kept (as_completed sched (map (probe_result w self) ports))) <->
  exists port name,
    In port ports /\ e = ETuple [PyInt port; PyStr name] /\
    outcome (scan_port w self port) = Ok (port, Some name, "ouvert").
Proof.
  rewrite in_flat_map. split.
  - intros [r [Hr He]].
    apply (Permutation_in _ (as_completed_perm sched _)) in Hr.
    apply in_map_iff in Hr. destruct Hr as [port [<- Hp]].
    apply kept_probe_result in He. destruct He as [name [He Ho]]. eauto.
  - intros [port [name [Hp [He Ho]]]].
    exists (probe_result w self port). split.
    + apply (Permutation_in _ (Permutation_sym (as_completed_perm sched _))).
      now apply in_map.
    + apply kept_probe_result. eauto.
Qed.

Lemma NoDup_kept (w : World) (self : PortScanner) (ports : list Z) :
  NoDup ports -> NoDup (flat_map kept (map (probe_result w self) ports)).
Proof.
  induction 1 as [| p ports Hp Hnd IH]; cbn [map flat_map]; [constructor |].
  apply NoDup_app.
  - destruct (probe_result w self p) as [[q sv] st]. cbn.
    destruct (String.eqb st "ouvert"); repeat constructor; intros [].
  - exact IH.
  - intros e He Hin.
    apply kept_probe_result in He. destruct He as [name [-> _]].
    apply in_flat_map in Hin. destruct Hin as [r [Hr He]].
    apply in_map_iff in Hr. destruct Hr as [q [<- Hq]].
    apply kept_probe_result in He. destruct He as [name' [Heq _]].
    injection Heq as -> _. contradiction.
Qed.

(** C2. For every completed scan started with an empty result list, the
    result list holds exactly the (port, service) pairs of the ports of the
    range whose probe returned the status "ouvert", each pair once; a port
    whose probe returned "fermé" or an "erreur: ..." status has no entry. *)
Theorem port_scan_keeps_exactly_open (w : World) (sched : list nat)
    (self self' : PortScanner) (port_range : string) (t : list event) :
  open_ports self = [] ->
  port_scan w sched self port_range = (t, Ok self') ->
  exists a b,
    parse_port_range w port_range = Ok (a, b) /\
    (forall e,
       In e (open_ports self') <->
       exists port service,
         (a <= port <= b)%Z /\ e = ETuple [PyInt port; PyStr service] /\
         outcome (scan_port w self port) = Ok (port, Some service, "ouvert")) /\
    NoDup (open_ports self') /\
    (forall port service status items,
       outcome (scan_port w self port) = Ok (port, service, status) ->
       status <> "ouvert" ->
       ~ In (ETuple (PyInt port :: items)) (open_ports self')).
Proof.
  intros Hempty Hscan.
  destruct (port_scan_completed _ _ _ _ _ _ Hscan) as [a [b [Hp [Hth ->]]]].
  exists a, b. cbn [open_ports with_open_ports]. rewrite Hempty. cbn [app].
  assert (Hin : forall e,
    In e (flat_map kept
            (as_completed sched (map (probe_result w self) (range a (b + 1))))) <->
    exists port service,
      (a <= port <= b)%Z /\ e = ETuple [PyInt port; PyStr service] /\
      outcome (scan_port w self port) = Ok (port, Some service, "ouvert")).
  { intros e. rewrite in_kept_results. split.
    - intros [port [name [Hr H]]]. apply in_range in Hr.
      exists port, name. split; [lia | exact H].
    - intros [port [name [Hr H]]]. exists port, name. split; [| exact H].
      apply in_range. lia. }
  split; [exact Hp |]. split; [exact Hin |]. split.
  - apply Permutation_NoDup
      with (flat_map kept (map (probe_result w self) (range a (b + 1)))).
    + apply Permutation_flat_map, Permutation_sym, as_completed_perm.
    + apply NoDup_kept, NoDup_range.
  - intros port service status items Ho Hst He.
    apply Hin in He. destruct He as [q [name [_ [Heq Hq]]]].
    injection Heq as <- _. rewrite Ho in Hq. injection Hq as _ Hs.
    contradiction.
Qed.

Lemma port_scan_keeps_exactly_open_witness :
  exists a b,
    parse_port_range lab_world "20-25" = Ok (a, b) /\
    (forall e,
       In e [ETuple [PyInt 22; PyStr "ssh"]] <->
       exists port service,
         (a <= port <= b)%Z /\ e = ETuple [PyInt port; PyStr service] /\
         outcome (scan_port lab_world lab_scanner port)
           = Ok (port, Some service, "ouvert")).
Proof.
  destruct (port_scan_keeps_exactly_open lab_world [3; 1; 0; 2]%nat lab_scanner
              (with_open_ports lab_scanner [ETuple [PyInt 22; PyStr "ssh"]])
              "20-25"
              (trace (port_scan lab_world [3; 1; 0; 2]%nat lab_scanner "20-25"))
              eq_refl eq_refl) as [a [b [H1 [H2 _]]]].
  exists a, b. split; [exact H1 | exact H2].
Defined.

(** C5. For every port whose connection attempt does not succeed, and so
    when it is refused or times out ([connect_ex] then returns a non-zero
    error number such as [ECONNREFUSED] or [EWOULDBLOCK]): once the socket
    exists and has taken the timeout, the prober returns the status "fermé"
    for it, or, when the attempt raised, a status "erreur: ..." made of the
    message of the exception; the port has no entry in the result list of a
    scan started with an empty list; and no failure of a probe escapes:
    every probe returns a result, and a scan that raises does so before any
    probe. *)
Theorem failed_connection_is_contained (w : World) (self : PortScanner)
    (port : Z) :
  connect_ex w (timeout self) (target self) port <> Ok 0%Z ->
  (forall code,
     is_ok (socket_new w port) = true ->
     is_ok (settimeout w (timeout self)) = true ->
     connect_ex w (timeout self) (target self) port = Ok code ->
     scan_port w self port =
       ([ESocket port; EConnect (target self) port; EClose port],
        Ok (port, None, "fermé"))) /\
  (forall e,
     is_ok (socket_new w port) = true ->
     is_ok (settimeout w (timeout self)) = true ->
     connect_ex w (timeout self) (target self) port = Exc e ->
     scan_port w self port =
       ([ESocket port; EConnect (target self) port; EClose port],
        Ok (port, None, "erreur: " ++ exn_msg e))) /\
  (forall sched port_range t self',
     open_ports self = [] ->
     port_scan w sched self port_range = (t, Ok self') ->
     forall items, ~ In (ETuple (PyInt port :: items)) (open_ports self')) /\
  (forall p, is_ok (outcome (scan_port w self p)) = true) /\
  (forall sched port_range e,
     outcome (port_scan w sched self port_range) = Exc e ->
     no_probe (trace (port_scan w sched self port_range))).
Proof.
  intros Hfail. split; [| split; [| split; [| split]]].
  - intros code Hsock Htime Hcode.
    rewrite scan_port_cases. rewrite Hcode.
    destruct (socket_new w port); [| discriminate].
    destruct (settimeout w (timeout self)); [| discriminate].
    destruct (Z.eqb_spec code 0) as [-> | _]; [contradiction | reflexivity].
  - intros e Hsock Htime Hexc.
    rewrite scan_port_cases. rewrite Hexc.
    destruct (socket_new w port); [| discriminate].
    destruct (settimeout w (timeout self)); [| discriminate].
    reflexivity.
  - intros sched port_range t self' Hempty Hscan items Hin.
    destruct (port_scan_completed _ _ _ _ _ _ Hscan) as [a [b [_ [_ ->]]]].
    cbn [open_ports with_open_ports] in Hin. rewrite Hempty in Hin.
    apply in_kept_results in Hin.
    destruct Hin as [q [name [_ [Heq Ho]]]]. injection Heq as <- _.
    apply scan_port_open_iff in Ho. now destruct Ho.
  - intros p. destruct (scan_port_returns w self p) as [t [sv [st H]]].
    rewrite H. reflexivity.
  - intros sched port_range e.
    assert (C := port_scan_cases w sched self port_range). cbn zeta in C.
    destruct (parse_port_range w port_range) as [[a b] | e'].
    + destruct (Z.leb_spec (threads self) 0).
      * rewrite C. intros _.
        apply no_probe_cons; [reflexivity | apply no_probe_nil].
      * destruct C as [t [C _]]. rewrite C. discriminate.
    + rewrite C. intros _.
      apply no_probe_cons; [reflexivity | apply no_probe_nil].
Qed.

Lemma failed_connection_is_contained_witness :
  scan_port lab_world lab_scanner 23 =
    ([ESocket 23; EConnect "10.0.0.7" 23; EClose 23], Ok (23, None, "fermé")) /\
  is_ok (outcome (scan_port lab_world lab_scanner 65536)) = true /\
  no_probe (trace (port_scan lab_world [5; 0; 2]%nat lab_scanner "1-1024-2")).
Proof.
  assert (Hfail : connect_ex lab_world (timeout lab_scanner) (target lab_scanner) 23
                  <> Ok 0%Z) by discriminate.
  destruct (failed_connection_is_contained lab_world lab_scanner 23 Hfail)
    as [H1 [_ [_ [H4 H5]]]].
  split; [| split].
  - apply (H1 EWOULDBLOCK); reflexivity.
  - apply H4.
  - apply (H5 [5; 0; 2]%nat "1-1024-2"
              (mkExn ValueError "too many values to unpack (expected 2)")).
    reflexivity.
Defined.

Lemma probe_result_with_open_ports (w : World) (self : PortScanner)
    (l : list entry) (port : Z) :
  probe_result w (with_open_ports self l) port = probe_result w self port.
Proof. reflexivity. Qed.

(** C7. Against a fixed world, two scans with the same configuration yield
    the same open set, whatever the order in which the probes complete: if
    one run completes, so does a second run from the same initial state,
    with the same entries up to their order; and a second run on the very
    same scanner object, which appends to the list of the first, leaves the
    set of entries as it was. *)
Theorem port_scan_idempotent (w : World) (sched1 sched2 : list nat)
    (self self1 : PortScanner) (port_range : string) (t1 : list event) :
  port_scan w sched1 self port_range = (t1, Ok self1) ->
  (exists t2 self2,
     port_scan w sched2 self port_range = (t2, Ok self2) /\
     Permutation (open_ports self1) (open_ports self2) /\
     (forall e, In e (open_ports self1) <-> In e (open_ports self2))) /\
  (exists t3 self3,
     port_scan w sched2 self1 port_range = (t3, Ok self3) /\
     (forall e, In e (open_ports self3) <-> In e (open_ports self1))).
Proof.
  intros Hscan.
  destruct (port_scan_completed _ _ _ _ _ _ Hscan) as [a [b [Hp [Hth ->]]]].
  set (results := map (probe_result w self) (range a (b + 1))).
  assert (Hperm : Permutation (flat_map kept (as_completed sched1 results))
                              (flat_map kept (as_completed sched2 results))).
  { apply Permutation_flat_map.
    apply perm_trans with results; [apply as_completed_perm |].
    apply Permutation_sym, as_completed_perm. }
  split.
  - assert (C := port_scan_cases w sched2 self port_range). cbn zeta in C.
    rewrite Hp in C. destruct (Z.leb_spec (threads self) 0); [lia |].
    destruct C as [t [C _]]. rewrite C. do 2 eexists.
    split; [reflexivity |]. cbn [open_ports with_open_ports]. fold results.
    assert (Hall : Permutation
              (open_ports self ++ flat_map kept (as_completed sched1 results))
              (open_ports self ++ flat_map kept (as_completed sched2 results)))
      by now apply Permutation_app_head.
    split; [exact Hall |].
    intros e. split; apply Permutation_in;
      [exact Hall | now apply Permutation_sym].
  - set (self1 := with_open_ports self
                    (open_ports self ++
                     flat_map kept (as_completed sched1 results))).
    assert (C := port_scan_cases w sched2 self1 port_range). cbn zeta in C.
    rewrite Hp in C. change (threads self1) with (threads self) in C.
    destruct (Z.leb_spec (threads self) 0); [lia |].
    destruct C as [t [C _]]. rewrite C. do 2 eexists.
    split; [reflexivity |].
    change (map (probe_result w self1) (range a (b + 1))) with results.
    cbn [open_ports with_open_ports self1].
    intros e. rewrite !in_app_iff. split; [| tauto].
    intros [[Hx | Hx] | Hx]; auto.
    right. revert Hx. apply Permutation_in. now apply Permutation_sym.
Qed.

Lemma port_scan_idempotent_witness :
  exists t2 self2,
    port_scan lab_world [0; 0; 1]%nat lab_scanner "20-80" = (t2, Ok self2) /\
    Permutation [ETuple [PyInt 80; PyStr "HTTP"]; ETuple [PyInt 22; PyStr "ssh"]]
                (open_ports self2).
Proof.
  destruct (port_scan_idempotent lab_world [60]%nat [0; 0; 1]%nat lab_scanner
              (with_open_ports lab_scanner
                 [ETuple [PyInt 80; PyStr "HTTP"]; ETuple [PyInt 22; PyStr "ssh"]])
              "20-80"
              (trace (port_scan lab_world [60]%nat lab_scanner "20-80"))
              eq_refl) as [[t2 [self2 [H1 [H2 _]]]] _].
  exists t2, self2. split; [exact H1 | exact H2].
Defined.

(** C1, as stated, fails: a range whose start is greater than its end is
    read as the empty range and the scan completes without any error; and a
    port outside 1..65535 is handed to a probe, which opens a socket. *)
Lemma reversed_or_out_of_range_is_accepted :
  port_scan lab_world [] lab_scanner "100-50" =
    ([EPrint "[*] Scan des ports 100-50 sur 10.0.0.7"], Ok lab_scanner) /\
  port_scan lab_world [] lab_scanner "65536-65536" =
    ([EPrint "[*] Scan des ports 65536-65536 sur 10.0.0.7";
      ESocket 65536; EConnect "10.0.0.7" 65536; EClose 65536],
     Ok lab_scanner).
Proof. split; reflexivity. Qed.

(** C1, amended. For every port-range expression that is not made of two
    texts that [int] reads, around one hyphen (non-numeric bounds such as
    "abc-100"), the scan fails with a [ValueError], the configuration error
    of the source, before any socket is opened.  A range whose start is
    greater than its end, as in "100-50", is not rejected: the scan opens no
    socket, and with a positive thread count it returns normally, its trace
    the banner alone and the result list as it was. *)
Theorem malformed_range_opens_no_socket (w : World) (sched : list nat)
    (self : PortScanner) (port_range : string) :
  (two_int_literals w port_range = false ->
   raises (port_scan w sched self port_range) ValueError /\
   no_probe (trace (port_scan w sched self port_range))) /\
  (forall a b,
     parse_port_range w port_range = Ok (a, b) ->
     (b < a)%Z ->
     no_probe (trace (port_scan w sched self port_range)) /\
     ((0 < threads self)%Z ->
      port_scan w sched self port_range =
        ([EPrint ("[*] Scan des ports " ++ port_range ++ " sur " ++ target self)],
         Ok self))).
Proof.
  assert (C := port_scan_cases w sched self port_range). cbn zeta in C.
  split.
  - intros Hmal. destruct (parse_port_range_exc _ _ Hmal) as [msg Hp].
    rewrite Hp in C. rewrite C. split.
    + exists msg. reflexivity.
    + apply no_probe_cons; [reflexivity | apply no_probe_nil].
  - intros a b Hp Hrev. rewrite Hp in C.
    destruct (Z.leb_spec (threads self) 0) as [Hth | Hth].
    + rewrite C. split; [| lia].
      apply no_probe_cons; [reflexivity | apply no_probe_nil].
    + destruct C as [t [C [Hnil _]]]. rewrite C.
      rewrite (range_empty a (b + 1)) in * by lia.
      rewrite (Hnil eq_refl). cbn. rewrite app_nil_r.
      split.
      * apply no_probe_cons; [reflexivity | apply no_probe_nil].
      * intros _. destruct self; reflexivity.
Qed.

Lemma malformed_range_opens_no_socket_witness :
  (raises (port_scan lab_world [] lab_scanner "abc-100") ValueError /\
   no_probe (trace (port_scan lab_world [] lab_scanner "abc-100"))) /\
  no_probe (trace (port_scan lab_world [] lab_scanner "100-50")) /\
  port_scan lab_world [] lab_scanner "100-50" =
    ([EPrint "[*] Scan des ports 100-50 sur 10.0.0.7"], Ok lab_scanner).
Proof.
  split.
  - apply (malformed_range_opens_no_socket lab_world [] lab_scanner "abc-100").
    reflexivity.
  - destruct (malformed_range_opens_no_socket lab_world [] lab_scanner "100-50")
      as [_ H].
    destruct (H 100%Z 50%Z eq_refl eq_refl) as [H1 H2].
    split; [exact H1 | apply H2; reflexivity].
Defined.

(** ** The CSV file *)

Lemma count_lines_app (a b : string) :
  count_lines (a ++ b) = (count_lines a + count_lines b)%nat.
Proof.
  induction a as [| c a IH]; cbn; [reflexivity |]. rewrite IH. lia.
Qed.

Lemma count_lines_double_quotes (s : string) :
  count_lines (double_quotes s) = count_lines s.
Proof.
  induction s as [| c s IH]; cbn [double_quotes count_lines]; [reflexivity |].
  destruct (Ascii.eqb_spec c dquote) as [-> | _]; cbn [count_lines];
    rewrite IH; reflexivity.
Qed.

Lemma count_lines_csv_field (s : string) :
  count_lines (csv_field s) = count_lines s.
Proof.
  unfold csv_field. destruct (any_char needs_quoting s); [| reflexivity].
  cbn [count_lines]. rewrite count_lines_app, count_lines_double_quotes.
  cbn. lia.
Qed.

Lemma count_lines_no_newline (s : string) :
  any_char is_newline s = false -> count_lines s = O.
Proof.
  induction s as [| c s IH]; cbn [count_lines any_char]; [reflexivity |].
  intros H. apply orb_false_elim in H. destruct H as [Hc Hs].
  unfold is_newline in Hc. apply orb_false_elim in Hc. destruct Hc as [_ Hc].
  rewrite Hc. cbn. auto.
Qed.

(** The decimal text of a number is made of digits and a sign: nothing in
    it needs quoting, and it holds no line break. *)
Lemma uint_plain (d : Decimal.uint) :
  any_char needs_quoting (NilEmpty.string_of_uint d) = false /\
  any_char is_newline (NilEmpty.string_of_uint d) = false.
Proof.
  induction d; cbn; try (split; reflexivity); destruct IHd; split; assumption.
Qed.

Lemma str_of_int_plain (z : Z) :
  any_char needs_quoting (str_of_int z) = false /\
  any_char is_newline (str_of_int z) = false.
Proof.
  unfold str_of_int, NilZero.string_of_int, NilZero.string_of_uint.
  destruct (Z.to_int z) as [d | d];
    destruct (uint_plain d); destruct d; cbn in *; split;
    solve [reflexivity | assumption].
Qed.

Lemma csv_field_str_of_int (z : Z) : csv_field (str_of_int z) = str_of_int z.
Proof.
  unfold csv_field. destruct (str_of_int_plain z) as [-> _]. reflexivity.
Qed.

(** The text written for the entry of an open port. *)
Lemma row_text (port : Z) (service : string) :
  row_of_entry (pair_entry (port, service)) =
    Ok [("port", PyInt port); ("service", PyStr service);
        ("banner", PyStr EmptyString)] /\
  dict_to_list [("port", PyInt port); ("service", PyStr service);
                ("banner", PyStr EmptyString)] =
    Ok [PyInt port; PyStr service; PyStr EmptyString] /\
  writer_writerow [PyInt port; PyStr service; PyStr EmptyString] =
    str_of_int port ++ "," ++ csv_field service ++ "," ++ CRLF.
Proof.
  repeat split. unfold writer_writerow, csv_record.
  cbn [map csv_str join]. rewrite csv_field_str_of_int.
  unfold csv_field at 2. cbn [any_char].
  rewrite !string_app_assoc. reflexivity.
Qed.

Lemma for_M_rows (filename : string) (rs : list (Z * string)) :
  for_M (fun r => row <- call (row_of_entry r) ;; DictWriter_writerow filename row)
        (map pair_entry rs) =
    (map (fun r => EWrite filename
                     (str_of_int (fst r) ++ "," ++ csv_field (snd r) ++ ","
                      ++ CRLF)) rs,
     Ok tt).
Proof.
  induction rs as [| [port service] rs IH]; [reflexivity |].
  cbn [map for_M]. rewrite IH.
  destruct (row_text port service) as [H1 [H2 H3]].
  rewrite H1. unfold call. rewrite bind_ok. unfold DictWriter_writerow at 1.
  rewrite H2. unfold call. rewrite bind_ok. rewrite H3. reflexivity.
Qed.

Lemma file_content_app (filename : string) (t1 t2 : list event) :
  file_content filename (t1 ++ t2) =
    file_content filename t1 ++ file_content filename t2.
Proof.
  induction t1 as [| e t1 IH]; cbn; [reflexivity |].
  destruct e; try exact IH.
  destruct (String.eqb filename0 filename); [| exact IH].
  rewrite IH. now rewrite string_app_assoc.
Qed.

Lemma file_content_writes (filename : string) (chunks : list string) :
  file_content filename (map (EWrite filename) chunks) =
    fold_right append EmptyString chunks.
Proof.
  induction chunks as [| c chunks IH]; cbn; [reflexivity |].
  now rewrite String.eqb_refl, IH.
Qed.

Lemma count_lines_rows (rs : list (Z * string)) :
  forallb (fun r => negb (any_char is_newline (snd r))) rs = true ->
  count_lines
    (fold_right append EmptyString
       (map (fun r => str_of_int (fst r) ++ "," ++ csv_field (snd r) ++ ","
                      ++ CRLF) rs)) = List.length rs.
Proof.
  induction rs as [| [port service] rs IH]; cbn [forallb map fold_right fst snd];
    [reflexivity |].
  intros H. apply andb_prop in H. destruct H as [Hs Hrs].
  apply negb_true_iff in Hs.
  rewrite !count_lines_app, count_lines_csv_field, (IH Hrs).
  rewrite (count_lines_no_newline _ Hs).
  rewrite (count_lines_no_newline (str_of_int port))
    by apply str_of_int_plain.
  reflexivity.
Qed.

Lemma save_results_csv (w : World) (self : PortScanner) (filename fmt : string)
    (rs : list (Z * string)) :
  filename <> EmptyString ->
  lower fmt = "csv" ->
  is_ok (open_file w filename) = true ->
  open_ports self = map pair_entry rs ->
  save_results w self (Some filename) fmt =
    ((EWrite filename ("port,service,banner" ++ CRLF)
      :: map (fun r => EWrite filename
                         (str_of_int (fst r) ++ "," ++ csv_field (snd r) ++ ","
                          ++ CRLF)) rs
      ++ [ELogInfo ("Résultats sauvegardés en CSV -> " ++ filename)])%list,
     Ok tt).
Proof.
  intros Hname Hfmt Hopen Hrs.
  destruct filename as [| c name]; [contradiction |].
  unfold save_results. rewrite Hfmt, Hrs.
  change (String.eqb "csv" "json") with false.
  change (String.eqb "csv" "csv") with true. cbv iota.
  destruct (open_file w (String c name)) as [[] | e]; [| discriminate].
  unfold call at 1. rewrite bind_ok.
  change (DictWriter_writeheader (String c name))
    with ([EWrite (String c name) ("port,service,banner" ++ CRLF)], Ok tt).
  rewrite bind_ok, for_M_rows, bind_ok. reflexivity.
Qed.

(** C8. For every result set, given as the list of its (port, service)
    pairs, the CSV file written by [save_results] is the header row
    [port,service,banner] followed by one row per open port, in which the
    banner field is empty: the row ends right after its second comma.  Its
    number of lines is one more than the number of open ports, service names
    holding no line break; so two open ports give exactly 3 lines. *)
Theorem csv_header_then_one_row_per_port (w : World) (self : PortScanner)
    (filename fmt : string) (rs : list (Z * string)) :
  filename <> EmptyString ->
  lower fmt = "csv" ->
  is_ok (open_file w filename) = true ->
  open_ports self = map pair_entry rs ->
  let written :=
    file_content filename (trace (save_results w self (Some filename) fmt)) in
  outcome (save_results w self (Some filename) fmt) = Ok tt /\
  written =
    "port,service,banner" ++ CRLF ++
    fold_right append EmptyString
      (map (fun r => str_of_int (fst r) ++ "," ++ csv_field (snd r) ++ ","
                     ++ EmptyString ++ CRLF) rs) /\
  (forallb (fun r => negb (any_char is_newline (snd r))) rs = true ->
   count_lines written = S (List.length rs) /\
   (List.length rs = 2%nat -> count_lines written = 3%nat)).
Proof.
  intros Hname Hfmt Hopen Hrs written. subst written.
  rewrite (save_results_csv w self filename fmt rs Hname Hfmt Hopen Hrs).
  cbn [trace outcome fst snd]. split; [reflexivity |].
  assert (Hc : file_content filename
            (EWrite filename ("port,service,banner" ++ CRLF)
             :: map (fun r => EWrite filename
                                (str_of_int (fst r) ++ "," ++ csv_field (snd r)
                                 ++ "," ++ CRLF)) rs
             ++ [ELogInfo ("Résultats sauvegardés en CSV -> " ++ filename)]) =
          "port,service,banner" ++ CRLF ++
          fold_right append EmptyString
            (map (fun r => str_of_int (fst r) ++ "," ++ csv_field (snd r) ++ ","
                           ++ CRLF) rs)).
  { cbn [file_content]. rewrite String.eqb_refl, file_content_app.
    rewrite <- (map_map
                  (fun r => str_of_int (fst r) ++ "," ++ csv_field (snd r)
                            ++ "," ++ CRLF)
                  (EWrite filename)).
    rewrite file_content_writes. cbn [file_content].
    rewrite string_app_assoc.
    replace (fold_right append EmptyString
               (map (fun r => str_of_int (fst r) ++ "," ++ csv_field (snd r)
                              ++ "," ++ CRLF) rs) ++ EmptyString)
      with (fold_right append EmptyString
              (map (fun r => str_of_int (fst r) ++ "," ++ csv_field (snd r)
                             ++ "," ++ CRLF) rs)).
    - reflexivity.
    - generalize (fold_right append EmptyString
                    (map (fun r => str_of_int (fst r) ++ "," ++ csv_field (snd r)
                                   ++ "," ++ CRLF) rs)).
      intros s. induction s as [| x s IH]; cbn; [reflexivity | now rewrite <- IH]. }
  rewrite Hc. split; [reflexivity |].
  intros Hnl.
  assert (Hn : count_lines
            ("port,service,banner" ++ CRLF ++
             fold_right append EmptyString
               (map (fun r => str_of_int (fst r) ++ "," ++ csv_field (snd r)
                              ++ "," ++ CRLF) rs)) = S (List.length rs)).
  { rewrite !count_lines_app, (count_lines_rows rs Hnl). reflexivity. }
  split; [exact Hn |]. intros H2. rewrite Hn, H2. reflexivity.
Qed.

Lemma csv_header_then_one_row_per_port_witness :
  file_content "scan.csv"
    (trace (save_results lab_world
              (with_open_ports lab_scanner
                 [ETuple [PyInt 80; PyStr "HTTP"]; ETuple [PyInt 443; PyStr "HTTPS"]])
              (Some "scan.csv") "CSV")) =
    "port,service,banner" ++ CRLF ++
    ("80,HTTP," ++ CRLF) ++ ("443,HTTPS," ++ CRLF) /\
  count_lines
    (file_content "scan.csv"
       (trace (save_results lab_world
                 (with_open_ports lab_scanner
                    [ETuple [PyInt 80; PyStr "HTTP"];
                     ETuple [PyInt 443; PyStr "HTTPS"]])
                 (Some "scan.csv") "CSV"))) = 3%nat.
Proof.
  assert (Hname : "scan.csv" <> EmptyString) by discriminate.
  destruct (csv_header_then_one_row_per_port lab_world
              (with_open_ports lab_scanner
                 [ETuple [PyInt 80; PyStr "HTTP"]; ETuple [PyInt 443; PyStr "HTTPS"]])
              "scan.csv" "CSV" [(80%Z, "HTTP"); (443%Z, "HTTPS")]
              Hname eq_refl eq_refl eq_refl) as [_ [H1 H2]].
  split.
  - exact H1.
  - destruct (H2 eq_refl) as [_ H3]. exact (H3 eq_refl).
Defined.

(** ** The pool *)

Section PoolFacts.
Local Open Scope list_scope.

Lemma update_length {A} (i : nat) (x : A) (l : list A) :
  List.length (update i x l) = List.length l.
Proof.
  revert i. induction l as [| y l IH]; intros [| j]; cbn; auto.
Qed.

(** A worker runs one probe at a time. *)
Lemma in_flight_workers (p : pool) :
  (List.length (in_flight p) <= List.length (workers p))%nat.
Proof.
  unfold in_flight. induction (workers p) as [| [port |] ws IH]; cbn; lia.
Qed.

(** [submit] is the only step that adds a worker, and only below the limit. *)
Lemma step_keeps_limit (a : action) (st st' : scan_state) :
  step a st = Some st' ->
  (Z.of_nat (List.length (workers (executor st))) <= max_workers (executor st))%Z ->
  max_workers (executor st') = max_workers (executor st) /\
  (Z.of_nat (List.length (workers (executor st'))) <= max_workers (executor st'))%Z.
Proof.
  intros Hstep Hinv. destruct a as [idle | i | i]; cbn in Hstep.
  - destruct (to_submit st) as [| port rest]; [discriminate |].
    injection Hstep as <-. cbn -[Z.of_nat].
    unfold submit, adjust_thread_count. cbn -[Z.of_nat].
    destruct idle; cbn -[Z.of_nat]; [auto |].
    destruct (Z.ltb_spec (Z.of_nat (List.length (workers (executor st))))
                (max_workers (executor st))); cbn -[Z.of_nat]; [| auto].
    split; [reflexivity |]. rewrite length_app. cbn. lia.
  - destruct (nth_error (workers (executor st)) i) as [[port |] |];
      try discriminate.
    destruct (work_queue (executor st)) as [| port q]; [discriminate |].
    injection Hstep as <-. cbn -[Z.of_nat]. now rewrite update_length.
  - destruct (nth_error (workers (executor st)) i) as [[port |] |];
      try discriminate.
    injection Hstep as <-. cbn -[Z.of_nat]. now rewrite update_length.
Qed.

Lemma run_keeps_limit (acts : list action) (st st' : scan_state) :
  run acts st = Some st' ->
  (Z.of_nat (List.length (workers (executor st))) <= max_workers (executor st))%Z ->
  max_workers (executor st') = max_workers (executor st) /\
  (Z.of_nat (List.length (workers (executor st'))) <= max_workers (executor st'))%Z.
Proof.
  revert st. induction acts as [| a acts IH]; intros st Hrun Hinv; cbn in Hrun.
  - injection Hrun as <-. auto.
  - destruct (step a st) as [st1 |] eqn:Hstep; [| discriminate].
    destruct (step_keeps_limit _ _ _ Hstep Hinv) as [Hmax Hinv1].
    destruct (IH _ Hrun Hinv1) as [Hmax' Hinv'].
    split; [congruence | exact Hinv'].
Qed.

Lemma scan_start_pool (w : World) (self : PortScanner) (port_range : string)
    (st0 : scan_state) :
  scan_start w self port_range = Ok st0 ->
  (0 < threads self)%Z /\
  executor st0 = mkPool (threads self) [] [] [] /\
  exists a b,
    parse_port_range w port_range = Ok (a, b) /\ to_submit st0 = range a (b + 1).
Proof.
  unfold scan_start, ThreadPoolExecutor.
  destruct (parse_port_range w port_range) as [[a b] | e]; [| discriminate].
  destruct (Z.leb_spec (threads self) 0); [discriminate |].
  intros Hst. injection Hst as <-. cbn.
  split; [assumption |]. split; [reflexivity |].
  exists a, b. split; reflexivity.
Qed.

(** C9. For every scan with thread count N, in every state that the pool
    reaches while the ports of the range are submitted, taken and probed,
    at most N probes are in flight; with a thread count of 1, at most one:
    no two probes overlap. *)
Theorem at_most_threads_probes_in_flight (w : World) (self : PortScanner)
    (port_range : string) (st0 st : scan_state) (acts : list action) :
  scan_start w self port_range = Ok st0 ->
  run acts st0 = Some st ->
  (Z.of_nat (List.length (in_flight (executor st))) <= threads self)%Z /\
  (threads self = 1%Z -> (List.length (in_flight (executor st)) <= 1)%nat).
Proof.
  intros Hstart Hrun.
  destruct (scan_start_pool _ _ _ _ Hstart) as [Hth [Hpool _]].
  destruct (run_keeps_limit _ _ _ Hrun) as [Hmax Hinv].
  { rewrite Hpool. cbn. lia. }
  rewrite Hmax, Hpool in Hinv. cbn [max_workers] in Hinv.
  assert (Hw := in_flight_workers (executor st)).
  split; [lia |]. intros H1. lia.
Qed.

Lemma at_most_threads_probes_in_flight_witness :
  exists st,
    run [Submit false; Take 0; Submit false; Submit true; Finish 0; Take 0]%nat
        (mkState [20; 21; 22; 23; 24; 25] (mkPool 1 [] [] [])) = Some st /\
    in_flight (executor st) = [21%Z] /\
    (Z.of_nat (List.length (in_flight (executor st))) <= 1)%Z.
Proof.
  eexists. split; [reflexivity |]. split; [reflexivity |].
  apply (at_most_threads_probes_in_flight lab_world
           (PortScanner_init "10.0.0.7" 1 2%Q) "20-25"
           (mkState [20; 21; 22; 23; 24; 25] (mkPool 1 [] [] []))
           _ [Submit false; Take 0; Submit false; Submit true; Finish 0; Take 0]%nat
           eq_refl eq_refl).
Defined.

(** The limit of a scanner built without a thread count is 10, in the class
    and on the command line alike. *)
Lemma default_limit (host : string) :
  threads (PortScanner_init host default_threads default_timeout) = 10%Z /\
  arg_threads (default_args host) = 10%Z.
Proof. split; reflexivity. Qed.

Lemma in_flight_take (ws : list (option Z)) (i : nat) (port : Z) :
  nth_error ws i = Some None ->
  Permutation (flat_map running (update i (Some port) ws))
              (port :: flat_map running ws).
Proof.
  revert i. induction ws as [| w ws IH]; intros [| j] H; cbn in H;
    try discriminate.
  - injection H as ->. apply Permutation_refl.
  - cbn [update flat_map].
    apply perm_trans with (running w ++ port :: flat_map running ws).
    + apply Permutation_app_head. now apply IH.
    + apply Permutation_sym.
      apply (Permutation_middle (running w) (flat_map running ws) port).
Qed.

Lemma in_flight_finish (ws : list (option Z)) (i : nat) (port : Z) :
  nth_error ws i = Some (Some port) ->
  Permutation (flat_map running ws)
              (port :: flat_map running (update i None ws)).
Proof.
  revert i. induction ws as [| w ws IH]; intros [| j] H; cbn in H;
    try discriminate.
  - injection H as ->. apply Permutation_refl.
  - cbn [update flat_map].
    apply perm_trans with (running w ++ port :: flat_map running (update j None ws)).
    + apply Permutation_app_head. now apply IH.
    + apply Permutation_sym.
      apply (Permutation_middle (running w) (flat_map running (update j None ws)) port).
Qed.

(** No step loses or repeats a task. *)
Lemma step_keeps_tasks (a : action) (st st' : scan_state) :
  step a st = Some st' -> Permutation (tasks st') (tasks st).
Proof.
  intros Hstep. destruct st as [sub [mw ws q done]].
  destruct a as [idle | i | i]; cbn in Hstep.
  - destruct sub as [| port rest]; [discriminate |].
    injection Hstep as <-. unfold tasks, submit, adjust_thread_count, in_flight.
    cbn [to_submit executor work_queue workers finished max_workers].
    assert (Hf : flat_map running
                   (workers (if idle then mkPool mw ws (q ++ [port]) done
                             else if (Z.of_nat (List.length ws) <? mw)%Z
                                  then mkPool mw (ws ++ [None]) (q ++ [port]) done
                                  else mkPool mw ws (q ++ [port]) done))
                 = flat_map running ws).
    { destruct idle; [reflexivity |].
      destruct (Z.of_nat (List.length ws) <? mw)%Z; [| reflexivity].
      cbn [workers]. rewrite flat_map_app. cbn. apply app_nil_r. }
    assert (Hq : work_queue (if idle then mkPool mw ws (q ++ [port]) done
                             else if (Z.of_nat (List.length ws) <? mw)%Z
                                  then mkPool mw (ws ++ [None]) (q ++ [port]) done
                                  else mkPool mw ws (q ++ [port]) done)
                 = (q ++ [port])%list).
    { destruct idle; [reflexivity |].
      destruct (Z.of_nat (List.length ws) <? mw)%Z; reflexivity. }
    assert (Hd : finished (if idle then mkPool mw ws (q ++ [port]) done
                           else if (Z.of_nat (List.length ws) <? mw)%Z
                                then mkPool mw (ws ++ [None]) (q ++ [port]) done
                                else mkPool mw ws (q ++ [port]) done)
                 = done).
    { destruct idle; [reflexivity |].
      destruct (Z.of_nat (List.length ws) <? mw)%Z; reflexivity. }
    rewrite Hf, Hq, Hd. rewrite <- !app_assoc. cbn [app].
    rewrite !app_assoc. rewrite <- (app_assoc (rest ++ q)).
    apply Permutation_sym.
    apply (Permutation_middle (rest ++ q) (flat_map running ws ++ done) port).
  - cbn [executor workers work_queue] in Hstep.
    destruct (nth_error ws i) as [[port |] |] eqn:Hi; try discriminate.
    destruct q as [| port q]; [discriminate |].
    injection Hstep as <-. unfold tasks, in_flight.
    cbn [to_submit executor work_queue workers finished].
    apply Permutation_app_head.
    apply perm_trans with (q ++ port :: flat_map running ws ++ done)%list.
    + apply Permutation_app_head.
      apply (Permutation_app_tail done (in_flight_take ws i port Hi)).
    + apply Permutation_sym.
      apply (Permutation_middle q (flat_map running ws ++ done) port).
  - cbn [executor workers] in Hstep.
    destruct (nth_error ws i) as [[port |] |] eqn:Hi; try discriminate.
    injection Hstep as <-. unfold tasks, in_flight.
    cbn [to_submit executor work_queue workers finished].
    do 2 apply Permutation_app_head.
    apply perm_trans
      with ((port :: flat_map running (update i None ws)) ++ done)%list.
    + cbn [app].
      apply Permutation_sym.
      apply (Permutation_trans
               (Permutation_middle (flat_map running (update i None ws)) done port)).
      rewrite app_assoc. rewrite <- (app_nil_r (_ ++ [port])%list) at 1.
      rewrite <- !app_assoc. cbn [app].
      apply Permutation_app_head.
      apply (Permutation_app_comm [port] done).
    + apply Permutation_app_tail, Permutation_sym, in_flight_finish, Hi.
Qed.

Lemma run_keeps_tasks (acts : list action) (st st' : scan_state) :
  run acts st = Some st' -> Permutation (tasks st') (tasks st).
Proof.
  revert st. induction acts as [| a acts IH]; intros st Hrun; cbn in Hrun.
  - injection Hrun as <-. apply Permutation_refl.
  - destruct (step a st) as [st1 |] eqn:Hstep; [| discriminate].
    apply perm_trans with (tasks st1); [now apply IH |].
    now apply step_keeps_tasks with a.
Qed.

Lemma run_app (acts1 acts2 : list action) (st : scan_state) :
  run (acts1 ++ acts2) st =
    match run acts1 st with
    | Some st1 => run acts2 st1
    | None => None
    end.
Proof.
  revert st. induction acts1 as [| a acts1 IH]; intros st; cbn; [reflexivity |].
  destruct (step a st); [apply IH | reflexivity].
Qed.

Lemma run_later_ports (mw : Z) (rest done : list Z) :
  run (flat_map (fun _ => [Submit true; Take O; Finish O]) rest)
      (mkState rest (mkPool mw [None] [] done)) =
    Some (mkState [] (mkPool mw [None] [] (done ++ rest))).
Proof.
  revert done. induction rest as [| port rest IH]; intros done.
  - cbn. now rewrite app_nil_r.
  - cbn [flat_map]. rewrite run_app. cbn. rewrite IH.
    now rewrite <- app_assoc.
Qed.

(** Every scan can run to its end: one worker at a time takes it there,
    and every port has then been probed, in the order of the range. *)
Lemma one_by_one_completes (w : World) (self : PortScanner) (port_range : string)
    (st0 : scan_state) :
  scan_start w self port_range = Ok st0 ->
  exists st,
    run (one_by_one false (to_submit st0)) st0 = Some st /\
    to_submit st = [] /\ work_queue (executor st) = [] /\
    in_flight (executor st) = [] /\
    finished (executor st) = to_submit st0.
Proof.
  intros Hstart.
  destruct (scan_start_pool _ _ _ _ Hstart) as [Hth [Hpool _]].
  destruct st0 as [ports p]. cbn in Hpool. subst p.
  cbn [to_submit]. destruct ports as [| port rest].
  - eexists. split; [reflexivity |]. cbn. auto.
  - unfold one_by_one. rewrite run_app.
    assert (H1 : run [Submit false; Take O; Finish O]
                   (mkState (port :: rest) (mkPool (threads self) [] [] [])) =
                 Some (mkState rest (mkPool (threads self) [None] [] [port]))).
    { cbn. destruct (Z.ltb_spec 0 (threads self)); [reflexivity | lia]. }
    rewrite H1, run_later_ports.
    eexists. split; [reflexivity |]. cbn. auto.
Qed.

(** When nothing is left to submit, queued or in flight, each port of the
    range has been probed exactly once. *)
Lemma finished_scan_probed_each_port_once (w : World) (self : PortScanner)
    (port_range : string) (st0 st : scan_state) (acts : list action) :
  scan_start w self port_range = Ok st0 ->
  run acts st0 = Some st ->
  to_submit st = [] -> work_queue (executor st) = [] ->
  in_flight (executor st) = [] ->
  Permutation (finished (executor st)) (to_submit st0) /\
  NoDup (finished (executor st)).
Proof.
  intros Hstart Hrun H1 H2 H3.
  destruct (scan_start_pool _ _ _ _ Hstart) as [_ [Hpool [a [b [_ Hports]]]]].
  assert (Hperm := run_keeps_tasks _ _ _ Hrun).
  unfold tasks in Hperm. rewrite H1, H2, H3, Hpool in Hperm.
  cbn in Hperm. rewrite app_nil_r in Hperm.
  split; [exact Hperm |].
  apply Permutation_NoDup with (to_submit st0).
  - now apply Permutation_sym.
  - rewrite Hports. apply NoDup_range.
Qed.

(** The order in which a finished run completed its probes is an order that
    [as_completed] can yield: the schedules of [port_scan] cover the runs of
    the pool. *)
Lemma completion_order_is_a_schedule (w : World) (self : PortScanner)
    (port_range : string) (st0 st : scan_state) (acts : list action) :
  scan_start w self port_range = Ok st0 ->
  run acts st0 = Some st ->
  to_submit st = [] -> work_queue (executor st) = [] ->
  in_flight (executor st) = [] ->
  exists sched, as_completed sched (to_submit st0) = finished (executor st).
Proof.
  intros Hstart Hrun H1 H2 H3.
  apply as_completed_any_order, Permutation_sym.
  now apply (finished_scan_probed_each_port_once w self port_range st0 st acts).
Qed.

End PoolFacts.

(** * Further properties of the scanner *)

Section Traces.
Local Open Scope list_scope.

(** ** Reading traces *)

Lemma only_prints_nil : only_prints [].
Proof. intros e []. Qed.

Lemma only_prints_cons (msg : string) (t : list event) :
  only_prints t -> only_prints (EPrint msg :: t).
Proof. intros H e [<- | He]; eauto. Qed.

Lemma only_prints_app (t1 t2 : list event) :
  only_prints t1 -> only_prints t2 -> only_prints (t1 ++ t2).
Proof.
  intros H1 H2 e He. apply in_app_or in He. destruct He; auto.
Qed.

Lemma only_prints_silent (t : list event) :
  only_prints t ->
  sockets_opened t = [] /\ sockets_closed t = [] /\ connections t = [] /\
  lookups t = [] /\ files_written t = [].
Proof.
  induction t as [| e t IH]; intros H; [repeat split |].
  destruct (H e (or_introl eq_refl)) as [msg ->].
  destruct IH as [H1 [H2 [H3 [H4 H5]]]].
  { intros x Hx. apply H. now right. }
  repeat split; cbn; assumption.
Qed.

Lemma only_saves_silent (filename : string) (t : list event) :
  only_saves filename t ->
  sockets_opened t = [] /\ sockets_closed t = [] /\ connections t = [] /\
  lookups t = [] /\ (forall f, In f (files_written t) -> f = filename).
Proof.
  induction t as [| e t IH]; intros H.
  - repeat split. intros f [].
  - destruct IH as [H1 [H2 [H3 [H4 H5]]]].
    { intros x Hx. apply H. now right. }
    destruct (H e (or_introl eq_refl)) as [[c ->] | [[m ->] | [m ->]]];
      repeat split; cbn; try assumption.
    intros f [<- | Hf]; auto.
Qed.

Lemma only_saves_app (filename : string) (t1 t2 : list event) :
  only_saves filename t1 -> only_saves filename t2 ->
  only_saves filename (t1 ++ t2).
Proof.
  intros H1 H2 e He. apply in_app_or in He. destruct He; auto.
Qed.

(** ** One probe *)

Lemma scan_port_events (w : World) (self : PortScanner) (port : Z) :
  sockets_opened (trace (scan_port w self port)) =
    (if is_ok (socket_new w port) then [port] else []) /\
  sockets_closed (trace (scan_port w self port)) =
    (if is_ok (socket_new w port) then [port] else []) /\
  connections (trace (scan_port w self port)) =
    (if reaches_connect w self port then [(target self, port)] else []).
Proof.
  rewrite scan_port_cases. unfold reaches_connect.
  destruct (socket_new w port); [| repeat split].
  destruct (settimeout w (timeout self)); [| repeat split].
  destruct (connect_ex w (timeout self) (target self) port) as [r | e];
    [| repeat split].
  destruct (r =? 0)%Z; repeat split.
Qed.

(** X1. A probe never leaves a socket open and never tries twice: its trace
    is empty when the socket cannot be created; otherwise it starts by
    opening the socket of its port and ends by closing it, and in between
    opens and closes nothing and attempts at most one connection, to the
    target and that port. *)
Theorem scan_port_closes_its_socket (w : World) (self : PortScanner) (port : Z) :
  (is_ok (socket_new w port) = false /\ trace (scan_port w self port) = []) \/
  (is_ok (socket_new w port) = true /\
   exists mid,
     trace (scan_port w self port) = ESocket port :: mid ++ [EClose port] /\
     sockets_opened mid = [] /\ sockets_closed mid = [] /\
     (connections mid = [] \/ connections mid = [(target self, port)])).
Proof.
  rewrite scan_port_cases.
  destruct (socket_new w port); [right | left; split; reflexivity].
  split; [reflexivity |].
  destruct (settimeout w (timeout self)).
  - destruct (connect_ex w (timeout self) (target self) port) as [r | e].
    + destruct (r =? 0)%Z.
      * exists [EConnect (target self) port; EServ port]. cbn. auto.
      * exists [EConnect (target self) port]. cbn. auto.
    + exists [EConnect (target self) port]. cbn. auto.
  - exists []. cbn. auto.
Qed.

(** A probe reports "ouvert" exactly when the socket exists, [settimeout]
    accepts the timeout, and the connection returns 0. *)
Lemma scan_port_open_exactly (w : World) (self : PortScanner) (port : Z) :
  (exists service,
     outcome (scan_port w self port) = Ok (port, service, "ouvert"%string)) <->
  reaches_connect w self port = true /\
  connect_ex w (timeout self) (target self) port = Ok 0%Z.
Proof.
  rewrite scan_port_cases. unfold reaches_connect.
  destruct (socket_new w port); cbn [is_ok andb].
  - destruct (settimeout w (timeout self)); cbn [is_ok].
    + destruct (connect_ex w (timeout self) (target self) port) as [r | e].
      * destruct (Z.eqb_spec r 0) as [-> | Hr].
        -- split; [intros _; split; reflexivity |].
           intros _. eexists. reflexivity.
        -- split; [intros [sv H]; discriminate |].
           intros [_ H]. injection H as ->. contradiction.
      * split; [intros [sv H] | intros [_ H]]; discriminate.
    + split; [intros [sv H] | intros [H _]]; discriminate.
  - split; [intros [sv H] | intros [H _]]; discriminate.
Qed.

(** X2. The result of a probe is tagged with the probed port, and carries
    a service name exactly when its status is "ouvert"; the status is then
    neither "fermé" nor an error text. A status "ouvert" is returned exactly
    when the connection attempt was reached (the socket was created and
    [settimeout] accepted the timeout) and returned 0. *)
Theorem scan_port_result_shape (w : World) (self : PortScanner) (port : Z) :
  exists t service status,
    scan_port w self port = (t, Ok (port, service, status)) /\
    (status = "ouvert"%string <-> exists name, service = Some name) /\
    (status = "ouvert"%string <->
     reaches_connect w self port = true /\
     connect_ex w (timeout self) (target self) port = Ok 0%Z).
Proof.
  destruct (scan_port_returns w self port) as [t [sv [st H]]].
  exists t, sv, st. split; [exact H |].
  assert (Hopen := scan_port_open_exactly w self port).
  rewrite H in Hopen. cbn [outcome snd] in Hopen.
  split.
  - split.
    + intros ->. apply (scan_port_open_iff w self port sv). now rewrite H.
    + intros [name ->]. revert H. rewrite scan_port_cases.
      destruct (socket_new w port); [| discriminate].
      destruct (settimeout w (timeout self)); [| discriminate].
      destruct (connect_ex w (timeout self) (target self) port) as [r | e];
        [| discriminate].
      destruct (r =? 0)%Z; [| discriminate].
      intros E. now injection E.
  - split.
    + intros ->. apply Hopen. eauto.
    + intros Hc. apply Hopen in Hc. destruct Hc as [sv' Hc].
      now injection Hc.
Qed.

(** ** One scan *)

Lemma fold_M_collect_prints (results : list (Z * option string * string))
    (self : PortScanner) :
  only_prints (trace (fold_M collect results self)).
Proof.
  revert self. induction results as [| [[port service] status] results IH];
    intros self.
  - apply only_prints_nil.
  - cbn [fold_M]. rewrite collect_cases.
    destruct (String.eqb status "ouvert"); rewrite bind_ok; cbn [trace fst].
    + apply only_prints_cons, IH.
    + apply IH.
Qed.

(** The trace of a scan that has a range and a pool: the line announcing
    the scan, then the events of the probes and the lines for the open
    ports, in the order in which the threads got to run. *)
Lemma port_scan_trace (w : World) (sched : list nat) (self : PortScanner)
    (port_range : string) (a b : Z) :
  parse_port_range w port_range = Ok (a, b) ->
  (0 < threads self)%Z ->
  exists t prints,
    only_prints prints /\
    trace (port_scan w sched self port_range) =
      EPrint ("[*] Scan des ports " ++ port_range ++ " sur " ++ target self)%string
      :: t /\
    Permutation t
      (flat_map (fun p => trace (scan_port w self p)) (range a (b + 1))
       ++ prints).
Proof.
  intros Hp Hth.
  assert (C := port_scan_cases w sched self port_range). cbn zeta in C.
  rewrite Hp in C. destruct (Z.leb_spec (threads self) 0); [lia |].
  destruct C as [t [C [_ Hperm]]]. rewrite C.
  exists t. eexists. split; [apply fold_M_collect_prints |].
  split; [reflexivity | exact Hperm].
Qed.

Lemma flat_map_if_singleton {A B} (c : A -> bool) (g : A -> B) (l : list A) :
  flat_map (fun x => if c x then [g x] else []) l = map g (filter c l).
Proof.
  induction l as [| x l IH]; cbn; [reflexivity |].
  destruct (c x); cbn; now rewrite IH.
Qed.

Lemma flat_map_flat_map {A B C} (f : A -> list B) (g : B -> list C) (l : list A) :
  flat_map g (flat_map f l) = flat_map (fun x => flat_map g (f x)) l.
Proof.
  induction l as [| x l IH]; cbn; [reflexivity |].
  now rewrite flat_map_app, IH.
Qed.

(** What the probes of a scan do, whatever the order of the threads. *)
Lemma port_scan_probes (w : World) (sched : list nat) (self : PortScanner)
    (port_range : string) (a b : Z) :
  parse_port_range w port_range = Ok (a, b) ->
  (0 < threads self)%Z ->
  Permutation (sockets_opened (trace (port_scan w sched self port_range)))
    (filter (fun p => is_ok (socket_new w p)) (range a (b + 1))) /\
  Permutation (sockets_closed (trace (port_scan w sched self port_range)))
    (filter (fun p => is_ok (socket_new w p)) (range a (b + 1))) /\
  Permutation (connections (trace (port_scan w sched self port_range)))
    (map (fun p => (target self, p))
         (filter (reaches_connect w self) (range a (b + 1)))).
Proof.
  intros Hp Hth.
  destruct (port_scan_trace w sched self port_range a b Hp Hth)
    as [t [prints [Hprints [-> Hperm]]]].
  destruct (only_prints_silent _ Hprints) as [H1 [H2 [H3 _]]].
  unfold sockets_opened, sockets_closed, connections in *.
  cbn [flat_map socket_of close_of connect_of app].
  assert (Hs : forall l,
    flat_map (fun p => flat_map socket_of (trace (scan_port w self p))) l =
    filter (fun p => is_ok (socket_new w p)) l).
  { intros l. rewrite <- (map_id (filter _ l)).
    rewrite <- flat_map_if_singleton. apply flat_map_ext. intros p.
    apply (scan_port_events w self p). }
  assert (Hc : forall l,
    flat_map (fun p => flat_map close_of (trace (scan_port w self p))) l =
    filter (fun p => is_ok (socket_new w p)) l).
  { intros l. rewrite <- (map_id (filter _ l)).
    rewrite <- flat_map_if_singleton. apply flat_map_ext. intros p.
    apply (scan_port_events w self p). }
  assert (Hn : forall l,
    flat_map (fun p => flat_map connect_of (trace (scan_port w self p))) l =
    map (fun p => (target self, p)) (filter (reaches_connect w self) l)).
  { intros l. rewrite <- flat_map_if_singleton. apply flat_map_ext. intros p.
    apply (scan_port_events w self p). }
  split; [| split].
  - rewrite (Permutation_flat_map socket_of Hperm).
    rewrite flat_map_app, H1, app_nil_r, flat_map_flat_map, Hs.
    apply Permutation_refl.
  - rewrite (Permutation_flat_map close_of Hperm).
    rewrite flat_map_app, H2, app_nil_r, flat_map_flat_map, Hc.
    apply Permutation_refl.
  - rewrite (Permutation_flat_map connect_of Hperm).
    rewrite flat_map_app, H3, app_nil_r, flat_map_flat_map, Hn.
    apply Permutation_refl.
Qed.

(** X3. A scan whose range reads as (a, b), run with a positive thread
    count, opens one socket for each port from a to b for which a socket can
    be created, and for no other port, no port twice; it closes every socket
    it opened; and it attempts exactly one connection, to its target, for
    each of these ports whose socket accepts the timeout.  The order of
    these events is that of the threads: the lists agree up to order. *)
Theorem port_scan_probes_exactly_the_range (w : World) (sched : list nat)
    (self : PortScanner) (port_range : string) (a b : Z) :
  parse_port_range w port_range = Ok (a, b) ->
  (0 < threads self)%Z ->
  Permutation (sockets_opened (trace (port_scan w sched self port_range)))
    (filter (fun p => is_ok (socket_new w p)) (range a (b + 1))) /\
  NoDup (sockets_opened (trace (port_scan w sched self port_range))) /\
  Permutation (sockets_closed (trace (port_scan w sched self port_range)))
    (sockets_opened (trace (port_scan w sched self port_range))) /\
  Permutation (connections (trace (port_scan w sched self port_range)))
    (map (fun p => (target self, p))
         (filter (reaches_connect w self) (range a (b + 1)))).
Proof.
  intros Hp Hth.
  destruct (port_scan_probes w sched self port_range a b Hp Hth)
    as [H1 [H2 H3]].
  split; [exact H1 |]. split; [| split; [| exact H3]].
  - apply Permutation_NoDup
      with (filter (fun p => is_ok (socket_new w p)) (range a (b + 1))).
    + now apply Permutation_sym.
    + apply NoDup_filter, NoDup_range.
  - apply perm_trans
      with (filter (fun p => is_ok (socket_new w p)) (range a (b + 1)));
      [exact H2 | now apply Permutation_sym].
Qed.

Lemma port_scan_probes_exactly_the_range_witness :
  sockets_opened (trace (port_scan strict_world [2; 0]%nat lab_scanner "20-22")) =
    [21; 20; 22]%Z /\
  Permutation
    (sockets_opened (trace (port_scan strict_world [2; 0]%nat lab_scanner "20-22")))
    [20; 21; 22]%Z /\
  Permutation
    (sockets_closed (trace (port_scan strict_world [2; 0]%nat lab_scanner "20-22")))
    (sockets_opened (trace (port_scan strict_world [2; 0]%nat lab_scanner "20-22"))).
Proof.
  destruct (port_scan_probes_exactly_the_range strict_world [2; 0]%nat lab_scanner
              "20-22" 20 22 eq_refl eq_refl) as [H1 [_ [H2 _]]].
  split; [reflexivity |]. split; [exact H1 | exact H2].
Defined.

(** X4. A scan completes exactly when its range is two texts that [int]
    reads, around one hyphen, and its thread count is positive.  Otherwise it raises
    a [ValueError] right after the line that announces it: nothing is
    probed, whether the fault is in the range or in the thread count. *)
Theorem port_scan_completes_iff (w : World) (sched : list nat)
    (self : PortScanner) (port_range : string) :
  (is_ok (outcome (port_scan w sched self port_range)) = true <->
   two_int_literals w port_range = true /\ (0 < threads self)%Z) /\
  (forall e,
     outcome (port_scan w sched self port_range) = Exc e ->
     exn_cls e = ValueError /\
     trace (port_scan w sched self port_range) =
       [EPrint ("[*] Scan des ports " ++ port_range ++ " sur "
                ++ target self)%string]).
Proof.
  assert (C := port_scan_cases w sched self port_range). cbn zeta in C.
  destruct (two_int_literals w port_range) eqn:Hwf.
  - destruct (parse_port_range_ok _ _ Hwf) as [a [b Hp]]. rewrite Hp in C.
    destruct (Z.leb_spec (threads self) 0) as [Hle | Hlt].
    + rewrite C. cbn. split.
      * split; [discriminate | intros [_ H]; lia].
      * intros e He. injection He as <-. split; reflexivity.
    + destruct C as [t [C _]]. rewrite C. cbn. split.
      * split; auto.
      * discriminate.
  - destruct (parse_port_range_exc _ _ Hwf) as [msg Hp]. rewrite Hp in C.
    rewrite C. cbn. split.
    + split; [discriminate | intros [H _]; discriminate].
    + intros e He. injection He as <-. split; reflexivity.
Qed.

Lemma port_scan_completes_iff_witness :
  is_ok (outcome (port_scan lab_world [] lab_scanner "20-25")) = true /\
  is_ok (outcome (port_scan lab_world [] (PortScanner_init "10.0.0.7" 0 2%Q)
                    "20-25")) = false.
Proof.
  destruct (port_scan_completes_iff lab_world [] lab_scanner "20-25") as [H _].
  destruct (port_scan_completes_iff lab_world []
              (PortScanner_init "10.0.0.7" 0 2%Q) "20-25") as [H' _].
  split.
  - apply H. split; reflexivity.
  - destruct (is_ok (outcome (port_scan lab_world []
                                (PortScanner_init "10.0.0.7" 0 2%Q) "20-25")))
      eqn:E; [| reflexivity].
    destruct H' as [H' _]. destruct (H' eq_refl) as [_ Hth]. discriminate.
Defined.

(** What the collecting loop keeps of results whose ports are all
    different: pairs whose ports are among them, and all different. *)
Lemma kept_pairs (w : World) (self : PortScanner)
    (l : list (Z * option string * string)) :
  (forall r, In r l -> exists port, r = probe_result w self port) ->
  NoDup (map (fun r => fst (fst r)) l) ->
  exists pairs,
    flat_map kept l = map pair_entry pairs /\
    NoDup (map fst pairs) /\
    (forall port, In port (map fst pairs) ->
       In port (map (fun r => fst (fst r)) l)) /\
    (List.length pairs <= List.length l)%nat.
Proof.
  induction l as [| r l IH]; intros Hin Hdup.
  - exists []. split; [reflexivity |]. split; [constructor |].
    split; [intros port [] | reflexivity].
  - cbn [map] in Hdup. apply NoDup_cons_iff in Hdup.
    destruct Hdup as [Hnew Hdup].
    destruct IH as [pairs [Hk [Hn [Hsub Hl]]]]; [| exact Hdup |].
    { intros r' Hr'. apply Hin. now right. }
    destruct (Hin r (or_introl eq_refl)) as [port Hr].
    assert (Ho := scan_port_probe_result w self port). rewrite <- Hr in Ho.
    destruct (scan_port_returns w self port) as [tp [sv [st H]]].
    rewrite H in Ho. cbn in Ho. injection Ho as Ho. clear Hr. subst r.
    cbn [fst] in Hnew. cbn [flat_map kept map fst].
    destruct (String.eqb_spec st "ouvert") as [-> | Hst].
    + destruct (scan_port_open_iff w self port sv) as [_ [name ->]].
      { rewrite H. reflexivity. }
      exists ((port, name) :: pairs). cbn [map fst app List.length].
      split; [now rewrite Hk |]. split; [| split].
      * constructor; [| exact Hn]. intros Hc. now apply Hnew, Hsub.
      * intros p [<- | Hp]; [now left | right; now apply Hsub].
      * lia.
    + exists pairs. cbn [app List.length].
      split; [exact Hk |]. split; [exact Hn |]. split.
      * intros p Hp. right. now apply Hsub.
      * lia.
Qed.

(** X5. A completed scan leaves the target, the thread count and the
    timeout of the scanner as they were, and only appends to its result
    list: what was there stays in front; at most one entry is added per port
    of the range, so that no port is added twice: the added entries are
    pairs of a port number and a service name, their ports lie in the range
    and are all different. *)
Theorem port_scan_only_appends (w : World) (sched : list nat)
    (self self' : PortScanner) (port_range : string) (t : list event) :
  port_scan w sched self port_range = (t, Ok self') ->
  target self' = target self /\ threads self' = threads self /\
  timeout self' = timeout self /\
  exists a b pairs,
    parse_port_range w port_range = Ok (a, b) /\
    open_ports self' = open_ports self ++ map pair_entry pairs /\
    NoDup (map fst pairs) /\
    (forall port, In port (map fst pairs) -> (a <= port <= b)%Z) /\
    (List.length pairs <= List.length (range a (b + 1)))%nat.
Proof.
  intros Hscan.
  destruct (port_scan_completed _ _ _ _ _ _ Hscan) as [a [b [Hp [Hth ->]]]].
  repeat split. exists a, b.
  assert (Hperm := as_completed_perm sched
                     (map (probe_result w self) (range a (b + 1)))).
  set (results := as_completed sched
                    (map (probe_result w self) (range a (b + 1)))) in *.
  assert (Hports : Permutation (map (fun r => fst (fst r)) results)
                               (range a (b + 1))).
  { apply perm_trans
      with (map (fun r => fst (fst r))
                (map (probe_result w self) (range a (b + 1)))).
    - apply Permutation_map, Hperm.
    - rewrite map_map.
      rewrite (map_ext (fun port => fst (fst (probe_result w self port)))
                       (fun port => port)), map_id; [apply Permutation_refl |].
      intros port. unfold probe_result.
      destruct (scan_port_returns w self port) as [tp [sv [st H]]].
      now rewrite H. }
  destruct (kept_pairs w self results) as [pairs [Hk [Hn [Hsub Hl]]]].
  { intros r Hr. apply (Permutation_in _ Hperm), in_map_iff in Hr.
    destruct Hr as [port [<- _]]. eauto. }
  { apply Permutation_NoDup with (range a (b + 1));
      [now apply Permutation_sym | apply NoDup_range]. }
  exists pairs. split; [exact Hp |].
  cbn [open_ports with_open_ports]. split; [now rewrite Hk |].
  split; [exact Hn |]. split.
  - intros port Hin. apply Hsub in Hin.
    apply (Permutation_in _ Hports), in_range in Hin. lia.
  - apply Nat.le_trans with (List.length results); [exact Hl |].
    rewrite (Permutation_length Hperm), length_map. lia.
Qed.

Lemma port_scan_only_appends_witness :
  exists a b pairs,
    parse_port_range lab_world "20-80" = Ok (a, b) /\
    [ETuple [PyInt 80; PyStr "HTTP"]; ETuple [PyInt 22; PyStr "ssh"]]
      = [] ++ map pair_entry pairs /\
    NoDup (map fst pairs).
Proof.
  destruct (port_scan_only_appends lab_world [60]%nat lab_scanner
              (with_open_ports lab_scanner
                 [ETuple [PyInt 80; PyStr "HTTP"]; ETuple [PyInt 22; PyStr "ssh"]])
              "20-80"
              (trace (port_scan lab_world [60]%nat lab_scanner "20-80"))
              eq_refl) as [_ [_ [_ [a [b [pairs [H1 [H2 [H3 _]]]]]]]]].
  exists a, b, pairs. split; [exact H1 |]. split; [exact H2 | exact H3].
Defined.

(** X6. After a completed scan started with an empty result list, a port
    is reported exactly when it lies in the range, its probe reached the
    connection attempt and the attempt returned 0; the service reported with
    it is the name of the system database when this one has the port, and
    otherwise the entry of the static table or 'Inconnu'. *)
Theorem port_reported_iff_connected (w : World) (sched : list nat)
    (self self' : PortScanner) (port_range : string) (t : list event) (a b : Z) :
  open_ports self = [] ->
  port_scan w sched self port_range = (t, Ok self') ->
  parse_port_range w port_range = Ok (a, b) ->
  forall port,
    ((exists name, In (ETuple [PyInt port; PyStr name]) (open_ports self')) <->
     (a <= port <= b)%Z /\ reaches_connect w self port = true /\
     connect_ex w (timeout self) (target self) port = Ok 0%Z) /\
    (forall name,
       In (ETuple [PyInt port; PyStr name]) (open_ports self') ->
       name = match getservbyport w port with
              | Ok known => known
              | Exc _ => dict_get Z.eqb common_services port "Inconnu"%string
              end).
Proof.
  intros Hempty Hscan Hp port.
  destruct (port_scan_completed _ _ _ _ _ _ Hscan) as [a' [b' [Hp' [Hth ->]]]].
  rewrite Hp in Hp'. injection Hp' as <- <-.
  cbn [open_ports with_open_ports]. rewrite Hempty. cbn [app].
  split.
  - split.
    + intros [name Hin]. apply in_kept_results in Hin.
      destruct Hin as [q [name' [Hr [Heq Ho]]]]. injection Heq as <- <-.
      apply in_range in Hr. split; [lia |].
      apply scan_port_open_exactly. eauto.
    + intros [Hr Hc]. apply scan_port_open_exactly in Hc.
      destruct Hc as [service Ho].
      destruct (scan_port_open_iff w self port service Ho) as [_ [name ->]].
      exists name. apply in_kept_results. exists port, name.
      split; [apply in_range; lia |]. split; [reflexivity | exact Ho].
  - intros name Hin. apply in_kept_results in Hin.
    destruct Hin as [q [name' [_ [Heq Ho]]]]. injection Heq as <- <-.
    revert Ho. rewrite scan_port_cases.
    destruct (socket_new w port); [| discriminate].
    destruct (settimeout w (timeout self)); [| discriminate].
    destruct (connect_ex w (timeout self) (target self) port) as [r | e];
      [| discriminate].
    destruct (r =? 0)%Z; [| discriminate].
    cbn. intros H. now injection H.
Qed.

Lemma port_reported_iff_connected_witness :
  (exists name, In (ETuple [PyInt 22; PyStr name])
                   [ETuple [PyInt 22; PyStr "ssh"]]) <->
  (20 <= 22 <= 25)%Z /\ reaches_connect lab_world lab_scanner 22 = true /\
  connect_ex lab_world (timeout lab_scanner) (target lab_scanner) 22 = Ok 0%Z.
Proof.
  apply (port_reported_iff_connected lab_world [3; 1; 0; 2]%nat lab_scanner
           (with_open_ports lab_scanner [ETuple [PyInt 22; PyStr "ssh"]])
           "20-25"
           (trace (port_scan lab_world [3; 1; 0; 2]%nat lab_scanner "20-25"))
           20 25 eq_refl eq_refl eq_refl 22).
Defined.

(** X7. The result list is never reset: a second scan on the same scanner
    appends, behind the entries of the first, the same entries once more (in
    the order of its own schedule). *)
Theorem second_scan_appends_again (w : World) (sched1 sched2 : list nat)
    (self self1 self2 : PortScanner) (port_range : string) (t1 t2 : list event) :
  port_scan w sched1 self port_range = (t1, Ok self1) ->
  port_scan w sched2 self1 port_range = (t2, Ok self2) ->
  exists added1 added2,
    open_ports self1 = open_ports self ++ added1 /\
    open_ports self2 = open_ports self ++ added1 ++ added2 /\
    Permutation added1 added2.
Proof.
  intros H1 H2.
  destruct (port_scan_completed _ _ _ _ _ _ H1) as [a [b [Hp [_ ->]]]].
  destruct (port_scan_completed _ _ _ _ _ _ H2) as [a' [b' [Hp' [_ ->]]]].
  rewrite Hp in Hp'. injection Hp' as <- <-.
  do 2 eexists. cbn [open_ports with_open_ports].
  split; [reflexivity |]. split; [now rewrite <- app_assoc |].
  change (map (probe_result w (with_open_ports self _)) (range a (b + 1)))
    with (map (probe_result w self) (range a (b + 1))).
  apply Permutation_flat_map.
  apply perm_trans with (map (probe_result w self) (range a (b + 1)));
    [apply as_completed_perm | apply Permutation_sym, as_completed_perm].
Qed.

Lemma second_scan_appends_again_witness :
  exists added1 added2,
    [ETuple [PyInt 22; PyStr "ssh"]] = [] ++ added1 /\
    [ETuple [PyInt 22; PyStr "ssh"]; ETuple [PyInt 22; PyStr "ssh"]]
      = [] ++ added1 ++ added2.
Proof.
  destruct (second_scan_appends_again lab_world [] [4]%nat lab_scanner
              (with_open_ports lab_scanner [ETuple [PyInt 22; PyStr "ssh"]])
              (with_open_ports lab_scanner
                 [ETuple [PyInt 22; PyStr "ssh"]; ETuple [PyInt 22; PyStr "ssh"]])
              "20-25"
              (trace (port_scan lab_world [] lab_scanner "20-25"))
              (trace (port_scan lab_world [4]%nat
                        (with_open_ports lab_scanner
                           [ETuple [PyInt 22; PyStr "ssh"]]) "20-25"))
              eq_refl eq_refl) as [added1 [added2 [H1 [H2 _]]]].
  exists added1, added2. split; [exact H1 | exact H2].
Defined.

(** Either the scan has a range and a pool, and opens the sockets of that
    range, or it stops before opening any. *)
Lemma port_scan_completes_or_stops (w : World) (sched : list nat)
    (self : PortScanner) (port_range : string) :
  (exists a b,
     parse_port_range w port_range = Ok (a, b) /\
     Permutation (sockets_opened (trace (port_scan w sched self port_range)))
       (filter (fun p => is_ok (socket_new w p)) (range a (b + 1)))) \/
  sockets_opened (trace (port_scan w sched self port_range)) = [].
Proof.
  assert (C := port_scan_cases w sched self port_range). cbn zeta in C.
  destruct (parse_port_range w port_range) as [[a b] | e] eqn:Hp.
  - destruct (Z.leb_spec (threads self) 0) as [Hle | Hlt].
    + right. rewrite C. reflexivity.
    + left. exists a, b. split; [reflexivity |].
      apply (port_scan_probes w sched self port_range a b Hp Hlt).
  - right. rewrite C. reflexivity.
Qed.

End Traces.


(** ** Port ranges *)

Section Ranges.

Lemma split_pieces_no_sep (sep : ascii) (s p : string) :
  In p (split sep s) -> all_chars (is_not sep) p = true.
Proof.
  revert p. induction s as [| c s IH]; intros p; cbn [split].
  - intros [<- | []]. reflexivity.
  - destruct (Ascii.eqb c sep) eqn:E.
    + intros [<- | Hp]; [reflexivity | auto].
    + destruct (split sep s) as [| p0 ps] eqn:Es.
      * now apply split_not_nil in Es.
      * intros [<- | Hp].
        -- cbn. unfold is_not at 1. rewrite E. cbn. apply IH. now left.
        -- apply IH. now right.
Qed.

Lemma lstrip_all_chars (f : ascii -> bool) (s : string) :
  all_chars f s = true -> all_chars f (lstrip s) = true.
Proof.
  induction s as [| c s IH]; cbn [lstrip]; [trivial |].
  intros H. destruct (is_space c); [| exact H].
  cbn in H. apply andb_prop in H. now apply IH.
Qed.

Lemma rstrip_all_chars (f : ascii -> bool) (s : string) :
  all_chars f s = true -> all_chars f (rstrip s) = true.
Proof.
  induction s as [| c s IH]; cbn [rstrip]; [trivial |].
  intros H. cbn in H. apply andb_prop in H. destruct H as [Hc Hs].
  specialize (IH Hs). destruct (rstrip s) as [| c' r].
  - destruct (is_space c); cbn; [reflexivity | now rewrite Hc].
  - change (f c && all_chars f (String c' r) = true). now rewrite Hc, IH.
Qed.

Lemma int_digits_nonneg (s : string) (acc z : Z) :
  (0 <= acc)%Z -> int_digits acc s = Some z -> (0 <= z)%Z.
Proof.
  assert (H : forall n s, (String.length s <= n)%nat ->
                forall acc, (0 <= acc)%Z -> int_digits acc s = Some z -> (0 <= z)%Z).
  { clear s acc. induction n as [| n IH]; intros s Hn acc Hacc.
    - destruct s; [| cbn in Hn; lia]. cbn. intros E. injection E as <-. exact Hacc.
    - destruct s as [| c s]; cbn [int_digits].
      + intros E. injection E as <-. exact Hacc.
      + assert (Hv : forall d, (0 <= 10 * acc + digit_value d)%Z).
        { intros d. unfold digit_value. lia. }
        cbn in Hn. destruct (is_ascii_digit c).
        * apply IH; [lia | apply Hv].
        * destruct (Ascii.eqb c "_"); [| discriminate].
          destruct s as [| d s]; [discriminate |].
          destruct (is_ascii_digit d); [| discriminate].
          apply IH; [cbn in Hn; lia | apply Hv]. }
  apply (H (String.length s) s). lia.
Qed.

Lemma int_unsigned_nonneg (s : string) (z : Z) :
  int_unsigned s = Some z -> (0 <= z)%Z.
Proof.
  destruct s as [| c s]; cbn; [discriminate |].
  destruct (is_ascii_digit c); [| discriminate].
  apply int_digits_nonneg. unfold digit_value. lia.
Qed.

Lemma all_chars_app (f : ascii -> bool) (a b : string) :
  all_chars f (a ++ b) = all_chars f a && all_chars f b.
Proof.
  induction a as [| c a IH]; cbn; [reflexivity |].
  now rewrite IH, andb_assoc.
Qed.

(** What the Unicode database makes of a character is a blank or a digit:
    never a sign. *)
Lemma render_int_char_no_hyphen (x : int_char) :
  is_not "-" (render_int_char x) = true.
Proof.
  destruct x as [| d]; [reflexivity |]. cbn [render_int_char].
  assert (H := Nat.mod_upper_bound d 10).
  destruct (Nat.modulo d 10) as [| [| [| [| [| [| [| [| [| [| n]]]]]]]]]];
    try reflexivity.
  lia.
Qed.

Lemma ascii_of_run_no_hyphen (w : World) (run r : string) :
  ascii_of_run w run = Some r -> all_chars (is_not "-") r = true.
Proof.
  unfold ascii_of_run. destruct run as [| c run].
  - intros H. injection H as <-. reflexivity.
  - destruct (unicode_int_chars w (String c run)) as [l |]; [| discriminate].
    cbn [option_map]. intros H. injection H as <-.
    induction l as [| x l IH]; cbn; [reflexivity |].
    now rewrite render_int_char_no_hyphen, IH.
Qed.

Lemma to_ascii_decimal_no_hyphen (w : World) (s run text : string) :
  all_chars (is_not "-") s = true ->
  to_ascii_decimal w run s = Some text ->
  all_chars (is_not "-") text = true.
Proof.
  revert run text. induction s as [| c s IH]; intros run text Hs;
    cbn [to_ascii_decimal].
  - apply ascii_of_run_no_hyphen.
  - cbn in Hs. apply andb_prop in Hs. destruct Hs as [Hc Hs].
    destruct (is_ascii_byte c).
    + destruct (ascii_of_run w run) as [r |] eqn:Er; [| discriminate].
      destruct (to_ascii_decimal w EmptyString s) as [t |] eqn:Et;
        [| discriminate].
      intros H. injection H as <-.
      rewrite all_chars_app. cbn [all_chars].
      now rewrite (ascii_of_run_no_hyphen _ _ _ Er), Hc, (IH _ _ Hs Et).
    + now apply IH.
Qed.

(** A literal without a hyphen reads as a number that is not negative. *)
Lemma int_of_str_nonneg (w : World) (s : string) (z : Z) :
  all_chars (is_not "-") s = true -> int_of_str w s = Ok z -> (0 <= z)%Z.
Proof.
  intros Hs. unfold int_of_str.
  destruct (to_ascii_decimal w EmptyString s) as [text |] eqn:Et;
    [| discriminate].
  assert (Hb : all_chars (is_not "-") (strip text) = true).
  { apply rstrip_all_chars, lstrip_all_chars.
    now apply (to_ascii_decimal_no_hyphen w s EmptyString). }
  destruct (strip text) as [| c body]; [discriminate |].
  cbn in Hb. apply andb_prop in Hb. destruct Hb as [Hc _].
  unfold is_not in Hc. apply negb_true_iff in Hc. rewrite Hc.
  destruct (Ascii.eqb c "+").
  - destruct (exceeds_limit w body); [discriminate |].
    destruct (int_unsigned body) as [v |] eqn:E; [| discriminate].
    intros H. injection H as <-. now apply int_unsigned_nonneg with body.
  - destruct (exceeds_limit w (String c body)); [discriminate |].
    destruct (int_unsigned (String c body)) as [v |] eqn:E; [| discriminate].
    intros H. injection H as <-. now apply int_unsigned_nonneg with (String c body).
Qed.

Lemma parse_port_range_pieces (w : World) (port_range : string) (a b : Z) :
  parse_port_range w port_range = Ok (a, b) ->
  exists x y,
    split "-" port_range = [x; y] /\ int_of_str w x = Ok a /\ int_of_str w y = Ok b.
Proof.
  unfold parse_port_range.
  destruct (split "-" port_range) as [| x [| y [| z l]]]; cbn [map unpack2].
  - discriminate.
  - destruct (int_of_str w x); discriminate.
  - destruct (int_of_str w x) eqn:Ex; [| discriminate].
    destruct (int_of_str w y) eqn:Ey; [| discriminate].
    intros H. injection H as <- <-. eauto.
  - destruct (int_of_str w x); [| discriminate].
    destruct (int_of_str w y); [| discriminate].
    destruct (int_of_str w z); discriminate.
Qed.

(** X8. The hyphen is the separator, so no bound can carry a minus sign:
    the two bounds read from a port range are never negative, and a scan
    never opens a socket for a negative port. *)
Theorem port_range_bounds_not_negative (w : World) (sched : list nat)
    (self : PortScanner) (port_range : string) :
  (forall a b, parse_port_range w port_range = Ok (a, b) -> (0 <= a)%Z /\ (0 <= b)%Z) /\
  (forall port,
     In port (sockets_opened (trace (port_scan w sched self port_range))) ->
     (0 <= port)%Z).
Proof.
  assert (Hb : forall a b,
            parse_port_range w port_range = Ok (a, b) -> (0 <= a)%Z /\ (0 <= b)%Z).
  { intros a b Hp.
    destruct (parse_port_range_pieces _ _ _ _ Hp) as [x [y [Hs [Hx Hy]]]].
    split.
    - apply int_of_str_nonneg with w x; [| exact Hx].
      apply split_pieces_no_sep with port_range. rewrite Hs. now left.
    - apply int_of_str_nonneg with w y; [| exact Hy].
      apply split_pieces_no_sep with port_range. rewrite Hs. now right; left. }
  split; [exact Hb |].
  intros port Hin.
  destruct (port_scan_completes_or_stops w sched self port_range)
    as [[a [b [Hp Hsock]]] | Hstop].
  - apply (Permutation_in _ Hsock), filter_In in Hin. destruct Hin as [Hr _].
    apply in_range in Hr. destruct (Hb a b Hp). lia.
  - rewrite Hstop in Hin. destruct Hin.
Qed.

Lemma split_piece_then_sep (sep : ascii) (x y : string) :
  all_chars (is_not sep) x = true ->
  split sep (x ++ String sep y) = x :: split sep y.
Proof.
  induction x as [| c x IH]; cbn [append split all_chars].
  - intros _. now rewrite Ascii.eqb_refl.
  - intros H. apply andb_prop in H. destruct H as [Hc Hx].
    unfold is_not in Hc. apply negb_true_iff in Hc.
    now rewrite Hc, (IH Hx).
Qed.

Lemma split_single_piece (sep : ascii) (y : string) :
  all_chars (is_not sep) y = true -> split sep y = [y].
Proof.
  induction y as [| c y IH]; cbn [split all_chars]; [reflexivity |].
  intros H. apply andb_prop in H. destruct H as [Hc Hy].
  unfold is_not in Hc. apply negb_true_iff in Hc.
  now rewrite Hc, (IH Hy).
Qed.

Lemma all_chars_weaken (f g : ascii -> bool) (s : string) :
  (forall c, f c = true -> g c = true) ->
  all_chars f s = true -> all_chars g s = true.
Proof.
  intros Hfg. induction s as [| c s IH]; cbn; [trivial |].
  intros H. apply andb_prop in H. destruct H as [Hc Hs].
  now rewrite (Hfg c Hc), IH.
Qed.

Lemma digit_is_not_hyphen (c : ascii) :
  is_ascii_digit c = true -> is_not "-" c = true.
Proof.
  unfold is_not. destruct (Ascii.eqb_spec c "-") as [-> | _]; [discriminate | trivial].
Qed.

Lemma digit_is_not_space (c : ascii) :
  is_ascii_digit c = true -> is_space c = false.
Proof.
  unfold is_ascii_digit, is_space. cbv zeta.
  destruct (Nat.leb_spec 48 (nat_of_ascii c)); [| discriminate].
  intros _.
  destruct (Nat.leb_spec (nat_of_ascii c) 13); [lia |].
  destruct (Nat.eqb_spec (nat_of_ascii c) 32); [lia |].
  rewrite andb_false_r. reflexivity.
Qed.

Lemma strip_digits (s : string) : all_chars is_ascii_digit s = true -> strip s = s.
Proof.
  intros H. unfold strip.
  assert (Hl : lstrip s = s).
  { destruct s as [| c s]; [reflexivity |]. cbn in *.
    apply andb_prop in H. destruct H as [Hc _].
    now rewrite (digit_is_not_space c Hc). }
  rewrite Hl. induction s as [| c s IH]; [reflexivity |].
  cbn in H. apply andb_prop in H. destruct H as [Hc Hs].
  cbn [rstrip]. rewrite IH.
  - destruct s; [now rewrite (digit_is_not_space c Hc) | reflexivity].
  - exact Hs.
  - destruct s as [| c' s]; [reflexivity |]. cbn in *.
    apply andb_prop in Hs. destruct Hs as [Hc' _].
    now rewrite (digit_is_not_space c' Hc').
Qed.

Lemma uint_all_digits (d : Decimal.uint) :
  all_chars is_ascii_digit (NilEmpty.string_of_uint d) = true.
Proof. induction d; cbn; trivial. Qed.

Lemma int_digits_step (c : ascii) (s : string) (acc : Z) :
  is_ascii_digit c = true ->
  int_digits acc (String c s) = int_digits (10 * acc + digit_value c) s.
Proof. intros H. cbn [int_digits]. now rewrite H. Qed.

Lemma int_digits_of_uint_acc (d : Decimal.uint) (p : positive) :
  int_digits (Z.pos p) (NilEmpty.string_of_uint d) =
    Some (Z.pos (Pos.of_uint_acc d p)).
Proof.
  revert p. induction d; intros p; cbn [NilEmpty.string_of_uint Pos.of_uint_acc];
    [reflexivity | ..];
    rewrite int_digits_step by reflexivity; rewrite <- IHd; f_equal;
    match goal with
    | |- context [digit_value ?c] =>
        let v := eval vm_compute in (digit_value c) in
        change (digit_value c) with v
    end; lia.
Qed.

Lemma int_digits_of_uint (d : Decimal.uint) :
  int_digits 0 (NilEmpty.string_of_uint d) = Some (Z.of_N (Pos.of_uint d)).
Proof.
  induction d; cbn [NilEmpty.string_of_uint Pos.of_uint]; [reflexivity | ..].
  - exact IHd.
  - apply (int_digits_of_uint_acc d 1).
  - apply (int_digits_of_uint_acc d 2).
  - apply (int_digits_of_uint_acc d 3).
  - apply (int_digits_of_uint_acc d 4).
  - apply (int_digits_of_uint_acc d 5).
  - apply (int_digits_of_uint_acc d 6).
  - apply (int_digits_of_uint_acc d 7).
  - apply (int_digits_of_uint_acc d 8).
  - apply (int_digits_of_uint_acc d 9).
Qed.

Lemma str_of_int_pos (p : positive) :
  str_of_int (Z.pos p) = NilEmpty.string_of_uint (Pos.to_uint p).
Proof.
  unfold str_of_int. cbn [Z.to_int NilZero.string_of_int].
  assert (H := Unsigned.to_uint_nonnil p).
  unfold NilZero.string_of_uint. destruct (Pos.to_uint p); [contradiction | ..];
    reflexivity.
Qed.

Lemma int_unsigned_str_of_int (z : Z) :
  (0 <= z)%Z -> int_unsigned (str_of_int z) = Some z.
Proof.
  intros Hz. destruct z as [| p | p]; [reflexivity | | lia].
  rewrite str_of_int_pos.
  assert (Hd := int_digits_of_uint (Pos.to_uint p)).
  rewrite Unsigned.of_to in Hd. cbn [Z.of_N] in Hd. rewrite <- Hd.
  assert (H := Unsigned.to_uint_nonnil p).
  destruct (Pos.to_uint p); [contradiction | ..]; reflexivity.
Qed.

Lemma str_of_int_digits (z : Z) :
  (0 <= z)%Z ->
  all_chars is_ascii_digit (str_of_int z) = true /\
  exists c rest, str_of_int z = String c rest.
Proof.
  intros Hz. destruct z as [| p | p]; [split; [reflexivity | now eexists; eexists] | | lia].
  rewrite str_of_int_pos. split; [apply uint_all_digits |].
  assert (H := Unsigned.to_uint_nonnil p).
  destruct (Pos.to_uint p); [contradiction | ..]; cbn; eauto.
Qed.

Lemma digits_ascii_text (s : string) :
  all_chars is_ascii_digit s = true -> is_ascii_text s = true.
Proof.
  induction s as [| c s IH]; cbn; [trivial |].
  intros H. apply andb_prop in H. destruct H as [Hc Hs].
  rewrite (IH Hs), andb_true_r.
  unfold is_ascii_digit in Hc. apply andb_prop in Hc. destruct Hc as [_ Hc].
  apply Nat.leb_le in Hc. apply Nat.leb_le. lia.
Qed.

(** ASCII text goes to [int] as it is. *)
Lemma to_ascii_decimal_ascii (w : World) (s : string) :
  is_ascii_text s = true -> to_ascii_decimal w EmptyString s = Some s.
Proof.
  induction s as [| c s IH]; cbn [to_ascii_decimal is_ascii_text];
    [reflexivity |].
  intros H. apply andb_prop in H. destruct H as [Hc Hs].
  rewrite Hc, (IH Hs). reflexivity.
Qed.

Lemma count_digits_all (s : string) :
  all_chars is_ascii_digit s = true -> count_digits s = String.length s.
Proof.
  induction s as [| c s IH]; cbn; [trivial |].
  intros H. apply andb_prop in H. destruct H as [Hc Hs].
  now rewrite Hc, (IH Hs).
Qed.

(** Reading the decimal text of a number that is not negative: [int] gives
    the number back when the text is within the digit limit, and refuses it
    otherwise. *)
Lemma int_of_str_str_of_int (w : World) (z : Z) :
  (0 <= z)%Z ->
  int_of_str w (str_of_int z) =
    if exceeds_limit w (str_of_int z)
    then Exc (mkExn ValueError "invalid literal for int() with base 10")
    else Ok z.
Proof.
  intros Hz. destruct (str_of_int_digits z Hz) as [Hd [c [rest E]]].
  assert (Hu := int_unsigned_str_of_int z Hz).
  unfold int_of_str.
  rewrite (to_ascii_decimal_ascii w _ (digits_ascii_text _ Hd)).
  rewrite (strip_digits _ Hd).
  rewrite E in *. cbn in Hd. apply andb_prop in Hd. destruct Hd as [Hc _].
  destruct (Ascii.eqb_spec c "+") as [-> | _]; [discriminate |].
  destruct (Ascii.eqb_spec c "-") as [-> | _]; [discriminate |].
  destruct (exceeds_limit w (String c rest)); [reflexivity |].
  now rewrite Hu.
Qed.

Lemma within_limit (w : World) (z : Z) :
  (0 <= z)%Z ->
  int_max_str_digits w = O \/
  (String.length (str_of_int z) <= int_max_str_digits w)%nat ->
  exceeds_limit w (str_of_int z) = false.
Proof.
  intros Hz H. unfold exceeds_limit.
  rewrite (count_digits_all _ (proj1 (str_of_int_digits z Hz))).
  destruct H as [-> | H]; [reflexivity |].
  apply andb_false_iff. right. apply Nat.ltb_ge. exact H.
Qed.

Lemma beyond_limit (w : World) (z : Z) :
  (0 <= z)%Z ->
  int_max_str_digits w <> O ->
  (int_max_str_digits w < String.length (str_of_int z))%nat ->
  exceeds_limit w (str_of_int z) = true.
Proof.
  intros Hz H0 H. unfold exceeds_limit.
  rewrite (count_digits_all _ (proj1 (str_of_int_digits z Hz))).
  apply andb_true_iff. split.
  - apply negb_true_iff, Nat.eqb_neq. exact H0.
  - apply Nat.ltb_lt. exact H.
Qed.

(** X9. Writing a range out and reading it back: for two numbers that are
    not negative, the expression made of their decimal texts around a
    hyphen is read by the scan as this very pair of bounds, provided that
    neither text has more digits than the interpreter converts (4300 unless
    configured otherwise; 0 stands for no limit).  When a text has more
    digits than that, the expression is refused with a [ValueError]. *)
Theorem parse_port_range_of_text (w : World) (a b : Z) :
  (0 <= a)%Z -> (0 <= b)%Z ->
  ((int_max_str_digits w = O \/
    (String.length (str_of_int a) <= int_max_str_digits w)%nat /\
    (String.length (str_of_int b) <= int_max_str_digits w)%nat) ->
   parse_port_range w (str_of_int a ++ String "-" (str_of_int b)) = Ok (a, b)) /\
  (int_max_str_digits w <> O ->
   (int_max_str_digits w < String.length (str_of_int a))%nat \/
   (int_max_str_digits w < String.length (str_of_int b))%nat ->
   exists msg,
     parse_port_range w (str_of_int a ++ String "-" (str_of_int b)) =
       Exc (mkExn ValueError msg)).
Proof.
  intros Ha Hb. unfold parse_port_range.
  destruct (str_of_int_digits a Ha) as [Hda _].
  destruct (str_of_int_digits b Hb) as [Hdb _].
  rewrite split_piece_then_sep
    by (apply all_chars_weaken with is_ascii_digit;
        [apply digit_is_not_hyphen | exact Hda]).
  rewrite split_single_piece
    by (apply all_chars_weaken with is_ascii_digit;
        [apply digit_is_not_hyphen | exact Hdb]).
  cbn [map]. rewrite !int_of_str_str_of_int by assumption.
  split.
  - intros Hlim.
    rewrite (within_limit w a Ha), (within_limit w b Hb) by tauto.
    reflexivity.
  - intros H0 [Hlim | Hlim].
    + rewrite (beyond_limit w a Ha H0 Hlim). eexists. reflexivity.
    + rewrite (beyond_limit w b Hb H0 Hlim).
      destruct (exceeds_limit w (str_of_int a)); eexists; reflexivity.
Qed.

Lemma parse_port_range_of_text_witness :
  parse_port_range lab_world "8000-8080" = Ok (8000, 8080)%Z /\
  exists msg,
    parse_port_range lab_world
      (str_of_int 80 ++ String "-" (str_of_int (10 ^ 4300))) =
      Exc (mkExn ValueError msg).
Proof.
  split.
  - apply (parse_port_range_of_text lab_world 8000 8080);
      [discriminate | discriminate | right; split; vm_compute; lia].
  - apply (parse_port_range_of_text lab_world 80 (10 ^ 4300));
      [discriminate | vm_compute; discriminate | discriminate
      | right; vm_compute; lia].
Defined.

Lemma port_range_bounds_not_negative_witness :
  (0 <= 20)%Z /\ (0 <= 25)%Z.
Proof.
  destruct (port_range_bounds_not_negative lab_world [] lab_scanner "20-25")
    as [H _].
  apply (H 20%Z 25%Z). reflexivity.
Defined.

End Ranges.

(** ** Saving *)

Section Saving.
Local Open Scope list_scope.

Lemma lower_char_idempotent (c : ascii) : lower_char (lower_char c) = lower_char c.
Proof. destruct c as [[] [] [] [] [] [] [] []]; reflexivity. Qed.

Lemma lower_idempotent (s : string) : lower (lower s) = lower s.
Proof.
  induction s as [| c s IH]; cbn; [reflexivity |].
  now rewrite lower_char_idempotent, IH.
Qed.

(** The format selector is read without regard to case: saving with a
    format gives what saving with its lower-case spelling gives. *)
Lemma save_results_format_case (w : World) (self : PortScanner)
    (filename : option string) (fmt : string) :
  save_results w self filename fmt = save_results w self filename (lower fmt).
Proof.
  unfold save_results. now rewrite lower_idempotent.
Qed.

(** Writing the row of one entry: one chunk, or the [IndexError] of an
    empty tuple. *)
Lemma write_row_cases (filename : string) (r : entry) :
  (row <- call (row_of_entry r) ;; DictWriter_writerow filename row) =
    match r with
    | ETuple [] => ([], Exc (mkExn IndexError "tuple index out of range"))
    | _ =>
        ([EWrite filename
            (writer_writerow
               match row_of_entry r with
               | Ok row => map snd row
               | Exc _ => []
               end)], Ok tt)
    end.
Proof.
  destruct r as [[| port [| service items]] | d | repr]; reflexivity.
Qed.

Lemma for_M_app {A} (f : A -> M unit) (l1 l2 : list A) :
  for_M f (l1 ++ l2) = (for_M f l1 ;;; for_M f l2).
Proof.
  induction l1 as [| x l1 IH]; cbn [app for_M].
  - destruct (for_M f l2) as [t r]. reflexivity.
  - destruct (f x) as [t [[] | e]]; [| reflexivity].
    rewrite !bind_ok. cbv beta. rewrite IH.
    destruct (for_M f l1) as [t1 [[] | e1]]; [| reflexivity].
    rewrite !bind_ok. cbn [trace outcome fst snd]. rewrite bind_ok.
    now rewrite app_assoc.
Qed.


Lemma for_M_any_only_saves (filename : string) (l : list entry) :
  only_saves filename
    (trace (for_M (fun r => row <- call (row_of_entry r) ;;
                            DictWriter_writerow filename row) l)).
Proof.
  induction l as [| r l IH]; [intros e [] |].
  cbn [for_M]. rewrite write_row_cases.
  destruct r as [[| port items] | d | repr];
    try (rewrite bind_ok; cbn [trace fst app]; intros e [<- | He]; eauto).
  intros e [].
Qed.

(** What [save_results] does once it has a file name. *)
Lemma save_results_named (w : World) (self : PortScanner) (c : ascii)
    (name fmt : string) :
  let filename := String c name in
  save_results w self (Some filename) fmt =
    if String.eqb (lower fmt) "json" then
      match open_file w filename with
      | Ok _ =>
          ([EWrite filename (json_dump w (open_ports self));
            ELogInfo ("Résultats sauvegardés en JSON -> " ++ filename)%string],
           Ok tt)
      | Exc e => ([], Exc e)
      end
    else if String.eqb (lower fmt) "csv" then
      match open_file w filename with
      | Ok _ =>
          (emit (EWrite filename ("port,service,banner" ++ CRLF)%string) ;;;
           for_M (fun r => row <- call (row_of_entry r) ;;
                           DictWriter_writerow filename row)
                 (open_ports self) ;;;
           emit (ELogInfo ("Résultats sauvegardés en CSV -> " ++ filename)%string))
      | Exc e => ([], Exc e)
      end
    else ([ELogWarning "Format inconnu pour la sauvegarde. Utilise json/csv."],
          Ok tt).
Proof.
  intros filename. subst filename. unfold save_results.
  destruct (String.eqb (lower fmt) "json").
  - destruct (open_file w (String c name)) as [[] | e]; reflexivity.
  - destruct (String.eqb (lower fmt) "csv"); [| reflexivity].
    destruct (open_file w (String c name)) as [[] | e]; [| reflexivity].
    destruct (for_M (fun r => row <- call (row_of_entry r) ;;
                              DictWriter_writerow (String c name) row)
                    (open_ports self)) as [t [[] | e]]; reflexivity.
Qed.

Lemma save_results_only_saves (w : World) (self : PortScanner) (c : ascii)
    (name fmt : string) :
  only_saves (String c name) (trace (save_results w self (Some (String c name)) fmt)).
Proof.
  assert (H := save_results_named w self c name fmt). cbv zeta in H. rewrite H.
  destruct (String.eqb (lower fmt) "json").
  - destruct (open_file w (String c name)) as [u | ex].
    + intros e [<- | [<- | []]]; eauto.
    + intros e [].
  - destruct (String.eqb (lower fmt) "csv").
    + destruct (open_file w (String c name)) as [u | ex]; [| intros e []].
      unfold emit at 1. rewrite bind_ok. cbn [trace fst].
      intros e [<- | He]; [eauto |].
      assert (Hrows := for_M_any_only_saves (String c name) (open_ports self)).
      destruct (for_M _ (open_ports self)) as [t [[] | e']].
      * rewrite bind_ok in He. cbn in He. apply in_app_or in He.
        destruct He as [He | [<- | []]]; [now apply Hrows | eauto].
      * cbn in He. now apply Hrows.
    + intros e [<- | []]; eauto.
Qed.

(** X10. [save_results] writes only when asked to: a chunk is written to
    a file only if that file is the given, non-empty name, the format is
    json or csv whatever its case, and the file could be opened.  Without a
    name it does nothing at all; with another format it only logs a warning
    and returns; when the file cannot be opened the error is raised with
    nothing written or logged. *)
Theorem save_results_writes_only_when_asked (w : World) (self : PortScanner)
    (filename : option string) (fmt : string) :
  (forall f,
     In f (files_written (trace (save_results w self filename fmt))) ->
     filename = Some f /\ f <> EmptyString /\
     (lower fmt = "json"%string \/ lower fmt = "csv"%string) /\
     is_ok (open_file w f) = true) /\
  (truthy filename = false -> save_results w self filename fmt = ([], Ok tt)) /\
  (truthy filename = true ->
   lower fmt <> "json"%string -> lower fmt <> "csv"%string ->
   save_results w self filename fmt =
     ([ELogWarning "Format inconnu pour la sauvegarde. Utilise json/csv."], Ok tt)) /\
  (forall f e,
     filename = Some f -> truthy filename = true ->
     lower fmt = "json"%string \/ lower fmt = "csv"%string ->
     open_file w f = Exc e ->
     save_results w self filename fmt = ([], Exc e)).
Proof.
  destruct filename as [[| c name] |].
  - split; [intros f [] |].
    split; [reflexivity |]. split; [discriminate |].
    intros f e _ Ht. discriminate.
  - assert (H := save_results_named w self c name fmt). cbv zeta in H.
    assert (Hs := save_results_only_saves w self c name fmt).
    apply only_saves_silent in Hs. destruct Hs as [_ [_ [_ [_ Hf]]]].
    split; [| split; [discriminate | split]].
    + intros f Hin. assert (Ef := Hf f Hin). subst f.
      split; [reflexivity |]. split; [discriminate |].
      rewrite H in Hin.
      destruct (String.eqb_spec (lower fmt) "json") as [Ej | _].
      * split; [now left |].
        destruct (open_file w (String c name)); [reflexivity | destruct Hin].
      * destruct (String.eqb_spec (lower fmt) "csv") as [Ec | _];
          [| cbn in Hin; destruct Hin].
        split; [now right |].
        destruct (open_file w (String c name)); [reflexivity | destruct Hin].
    + intros _ Hj Hc. rewrite H.
      destruct (String.eqb_spec (lower fmt) "json"); [contradiction |].
      destruct (String.eqb_spec (lower fmt) "csv"); [contradiction |].
      reflexivity.
    + intros f e Ef _ Hfmt Hopen. injection Ef as <-. rewrite H, Hopen.
      destruct (String.eqb_spec (lower fmt) "json"); [reflexivity |].
      destruct (String.eqb_spec (lower fmt) "csv"); [reflexivity |].
      destruct Hfmt; contradiction.
  - split; [intros f [] |].
    split; [reflexivity |]. split; [discriminate |].
    intros f e _ Ht. discriminate.
Qed.

Lemma save_results_writes_only_when_asked_witness :
  save_results lab_world lab_scanner (Some "scan.xml") "XML" =
    ([ELogWarning "Format inconnu pour la sauvegarde. Utilise json/csv."], Ok tt) /\
  save_results lab_world lab_scanner (Some EmptyString) "csv" = ([], Ok tt).
Proof.
  destruct (save_results_writes_only_when_asked lab_world lab_scanner
              (Some "scan.xml"%string) "XML") as [_ [_ [H _]]].
  destruct (save_results_writes_only_when_asked lab_world lab_scanner
              (Some EmptyString) "csv") as [_ [H' _]].
  split.
  - apply H; [reflexivity | discriminate | discriminate].
  - apply H'. reflexivity.
Defined.

(** X11. An empty tuple among the entries stops the CSV export half way:
    [save_results] raises the [IndexError] of its first element, the file is
    left with the header and the rows of the entries that came before, and
    the success line is not logged. *)
Theorem save_results_csv_stops_at_empty_tuple (w : World) (self : PortScanner)
    (filename fmt : string) (rs : list (Z * string)) (rest : list entry) :
  filename <> EmptyString ->
  lower fmt = "csv"%string ->
  is_ok (open_file w filename) = true ->
  open_ports self = map pair_entry rs ++ ETuple [] :: rest ->
  outcome (save_results w self (Some filename) fmt) =
    Exc (mkExn IndexError "tuple index out of range") /\
  file_content filename (trace (save_results w self (Some filename) fmt)) =
    ("port,service,banner" ++ CRLF ++
     fold_right append EmptyString
       (map (fun r => str_of_int (fst r) ++ "," ++ csv_field (snd r) ++ ","
                      ++ CRLF) rs))%string /\
  (forall msg,
     ~ In (ELogInfo msg) (trace (save_results w self (Some filename) fmt))).
Proof.
  intros Hname Hfmt Hopen Hrs.
  destruct filename as [| c name]; [contradiction |].
  assert (H := save_results_named w self c name fmt). cbv zeta in H.
  rewrite H, Hfmt, Hrs. clear H.
  change (String.eqb "csv" "json") with false.
  change (String.eqb "csv" "csv") with true. cbv iota.
  destruct (open_file w (String c name)) as [[] | e]; [| discriminate].
  rewrite for_M_app, for_M_rows. cbn [for_M]. rewrite write_row_cases.
  unfold emit at 1. rewrite !bind_ok. cbn [trace outcome fst snd bind].
  rewrite app_nil_r. unfold emit. rewrite bind_ok.
  cbn [trace outcome fst snd app].
  split; [reflexivity |]. split.
  - cbn [file_content]. rewrite String.eqb_refl.
    rewrite <- (map_map
                  (fun r => str_of_int (fst r) ++ "," ++ csv_field (snd r)
                            ++ "," ++ CRLF)%string
                  (EWrite (String c name))).
    rewrite file_content_writes. now rewrite string_app_assoc.
  - intros msg [Hin | Hin]; [discriminate |].
    apply in_map_iff in Hin. destruct Hin as [r [Hr _]]. discriminate.
Qed.

Lemma save_results_csv_stops_at_empty_tuple_witness :
  outcome (save_results lab_world
             (with_open_ports lab_scanner
                [ETuple [PyInt 80; PyStr "HTTP"]; ETuple [];
                 ETuple [PyInt 443; PyStr "HTTPS"]])
             (Some "scan.csv"%string) "csv") =
    Exc (mkExn IndexError "tuple index out of range") /\
  file_content "scan.csv"
    (trace (save_results lab_world
              (with_open_ports lab_scanner
                 [ETuple [PyInt 80; PyStr "HTTP"]; ETuple [];
                  ETuple [PyInt 443; PyStr "HTTPS"]])
              (Some "scan.csv"%string) "csv")) =
    ("port,service,banner" ++ CRLF ++ "80,HTTP," ++ CRLF)%string.
Proof.
  assert (Hname : "scan.csv"%string <> EmptyString) by discriminate.
  destruct (save_results_csv_stops_at_empty_tuple lab_world
              (with_open_ports lab_scanner
                 [ETuple [PyInt 80; PyStr "HTTP"]; ETuple [];
                  ETuple [PyInt 443; PyStr "HTTPS"]])
              "scan.csv" "csv" [(80%Z, "HTTP"%string)]
              [ETuple [PyInt 443; PyStr "HTTPS"]]
              Hname eq_refl eq_refl eq_refl) as [H1 [H2 _]].
  split; [exact H1 | exact H2].
Defined.



End Saving.

(** ** The whole run *)

Section Driver.
Local Open Scope list_scope.

Lemma scan_events_silent (host : string) (t : list event) :
  (forall e, In e t -> scan_event host e = true) ->
  lookups t = [] /\ files_written t = [] /\
  (forall h port, In (h, port) (connections t) -> h = host).
Proof.
  induction t as [| e t IH]; intros H.
  - repeat split. intros h port [].
  - destruct IH as [H1 [H2 H3]].
    { intros x Hx. apply H. now right. }
    assert (He := H e (or_introl eq_refl)).
    destruct e; try discriminate; repeat split; cbn; try assumption.
    intros h p [Heq | Hin]; [| now apply H3 with p].
    injection Heq as <- <-. cbn in He. now apply String.eqb_eq in He.
Qed.

Lemma scan_port_scan_events (w : World) (self : PortScanner) (port : Z) :
  forall e, In e (trace (scan_port w self port)) -> scan_event (target self) e = true.
Proof.
  rewrite scan_port_cases.
  destruct (socket_new w port) as [u | ex0]; [| intros e []].
  destruct (settimeout w (timeout self)) as [u' | ex1].
  - destruct (connect_ex w (timeout self) (target self) port) as [r | ex].
    + destruct (r =? 0)%Z; intros e He; cbn in He;
        repeat (destruct He as [<- | He];
                [cbn; try reflexivity; apply String.eqb_refl |]);
        destruct He.
    + intros e He; cbn in He;
        repeat (destruct He as [<- | He];
                [cbn; try reflexivity; apply String.eqb_refl |]);
        destruct He.
  - intros e He; cbn in He;
      repeat (destruct He as [<- | He]; [reflexivity |]); destruct He.
Qed.

Lemma port_scan_scan_events (w : World) (sched : list nat) (self : PortScanner)
    (port_range : string) :
  forall e, In e (trace (port_scan w sched self port_range)) ->
            scan_event (target self) e = true.
Proof.
  assert (C := port_scan_cases w sched self port_range). cbn zeta in C.
  destruct (parse_port_range w port_range) as [[a b] | ex] eqn:Hp.
  - destruct (Z.leb_spec (threads self) 0) as [Hle | Hlt].
    + rewrite C. intros e [<- | []]. reflexivity.
    + destruct (port_scan_trace w sched self port_range a b Hp Hlt)
        as [t [prints [Hprints [-> Hperm]]]].
      intros e [<- | He]; [reflexivity |].
      apply (Permutation_in _ Hperm), in_app_or in He.
      destruct He as [He | He].
      * apply in_flat_map in He. destruct He as [p [_ He]].
        exact (scan_port_scan_events w self p e He).
      * destruct (Hprints e He) as [msg ->]. reflexivity.
  - rewrite C. intros e [<- | []]. reflexivity.
Qed.

Lemma resolve_target_lookups (w : World) (self : PortScanner) :
  lookups (trace (resolve_target w self)) =
    (if isdigit w (replace "." EmptyString (target self)) then []
     else [target self]) /\
  connections (trace (resolve_target w self)) = [] /\
  files_written (trace (resolve_target w self)) = [].
Proof.
  destruct (isdigit w (replace "." EmptyString (target self))) eqn:E.
  - rewrite (resolve_target_literal w self E). repeat split.
  - rewrite (resolve_target_lookup w self E).
    destruct (gethostbyname w (target self)) as [ip | ex]; [repeat split |].
    destruct (catch_gaierror (exn_cls ex)); repeat split.
Qed.

(** The four ways [main] can go. *)
Lemma main_cases (w : World) (sched : list nat) (args : Args) :
  let start := EPrint ("[*] Démarrage du scan sur " ++ arg_target args)%string in
  match resolve_target w (scanner_of args) with
  | (tr, Exc e) => main w sched args = (start :: tr, Exc e)
  | (tr, Ok r) =>
      if negb (truthy r) then main w sched args = (start :: tr, Ok (scanner_of args))
      else
        forall ip, r = Some ip ->
        match port_scan w sched (set_target (scanner_of args) ip) (arg_ports args) with
        | (tp, Exc e) => main w sched args = (start :: tr ++ tp, Exc e)
        | (tp, Ok sc) =>
            exists tprints tsave,
              only_prints tprints /\
              tsave = trace (if truthy (arg_output args)
                             then save_results w sc (arg_output args) (arg_format args)
                             else ret tt) /\
              trace (main w sched args) = start :: tr ++ tp ++ tprints ++ tsave /\
              (forall s', outcome (main w sched args) = Ok s' -> s' = sc)
        end
  end.
Proof.
  intros start. unfold main. fold (scanner_of args). fold start.
  destruct (resolve_target w (scanner_of args)) as [tr [r | e]]; [| reflexivity].
  unfold emit at 1. rewrite bind_ok. cbv beta. rewrite bind_ok. cbv beta.
  cbn [trace outcome fst snd app].
  destruct r as [[| c ip] |].
  - cbn. now rewrite app_nil_r.
  - cbn [truthy negb]. intros ip' Hip. injection Hip as <-.
    destruct (port_scan w sched (set_target (scanner_of args) (String c ip))
                (arg_ports args)) as [tp [sc | e]]; [| reflexivity].
    rewrite bind_ok. cbv beta. unfold emit.
    rewrite bind_ok. cbv beta. rewrite bind_ok. cbv beta.
    cbn [trace outcome fst snd].
    exists [EPrint (String LF ("[o] Scan terminé en " ++ elapsed w
                               ++ " secondes")%string);
            EPrint ("[+] " ++ str_of_int (Z.of_nat (List.length (open_ports sc)))
                    ++ " ports ouverts trouvés")%string].
    eexists. split.
    { apply only_prints_cons, only_prints_cons, only_prints_nil. }
    split; [reflexivity |].
    destruct (if truthy (arg_output args)
              then save_results w sc (arg_output args) (arg_format args)
              else ret tt) as [ts [[] | e]];
      cbn [bind ret trace outcome fst snd app].
    + rewrite app_nil_r. split; [reflexivity |].
      intros s' H. now injection H.
    + split; [reflexivity | discriminate].
  - cbn. now rewrite app_nil_r.
Qed.

Lemma truthy_some (r : option string) :
  truthy r = true -> exists c name, r = Some (String c name).
Proof.
  destruct r as [[| c name] |]; try discriminate. eauto.
Qed.

Lemma save_step_only_saves (w : World) (sc : PortScanner) (output : option string)
    (fmt : string) :
  sockets_opened
    (trace (if truthy output then save_results w sc output fmt else ret tt)) = [] /\
  connections
    (trace (if truthy output then save_results w sc output fmt else ret tt)) = [] /\
  lookups
    (trace (if truthy output then save_results w sc output fmt else ret tt)) = [] /\
  (forall f,
     In f (files_written
             (trace (if truthy output then save_results w sc output fmt
                     else ret tt))) ->
     output = Some f /\ f <> EmptyString /\
     In f (files_written (trace (save_results w sc output fmt)))).
Proof.
  destruct (truthy output) eqn:Ht.
  - destruct (truthy_some _ Ht) as [c [name ->]].
    assert (Hs := save_results_only_saves w sc c name fmt).
    apply only_saves_silent in Hs. destruct Hs as [H1 [_ [H3 [H4 H5]]]].
    repeat split; try assumption.
    + now rewrite (H5 f H).
    + rewrite (H5 f H). discriminate.
  - repeat split; destruct H.
Qed.

(** What the whole run does, read from its parts. *)
Lemma main_trace_parts (w : World) (sched : list nat) (args : Args) :
  lookups (trace (main w sched args)) =
    lookups (trace (resolve_target w (scanner_of args))) /\
  (forall host port,
     In (host, port) (connections (trace (main w sched args))) ->
     host <> EmptyString /\
     outcome (resolve_target w (scanner_of args)) = Ok (Some host)) /\
  (forall f,
     In f (files_written (trace (main w sched args))) ->
     arg_output args = Some f /\ f <> EmptyString /\
     exists ip tp sc,
       outcome (resolve_target w (scanner_of args)) = Ok (Some ip) /\
       port_scan w sched (set_target (scanner_of args) ip) (arg_ports args)
         = (tp, Ok sc) /\
       In f (files_written
               (trace (save_results w sc (arg_output args) (arg_format args))))).
Proof.
  assert (C := main_cases w sched args). cbv zeta in C.
  destruct (resolve_target_lookups w (scanner_of args)) as [_ [Hrc Hrf]].
  destruct (resolve_target w (scanner_of args)) as [tr [r | e]] eqn:Hres;
    cbn [trace outcome fst snd] in *.
  - destruct (truthy r) eqn:Ht; cbn [negb] in C.
    + destruct (truthy_some _ Ht) as [c [ip ->]].
      specialize (C _ eq_refl).
      assert (Hev := port_scan_scan_events w sched
                       (set_target (scanner_of args) (String c ip))
                       (arg_ports args)).
      apply scan_events_silent in Hev. destruct Hev as [Hl [Hf Hc]].
      destruct (port_scan w sched (set_target (scanner_of args) (String c ip))
                  (arg_ports args)) as [tp [sc | e]] eqn:Hps; cbn [trace fst] in *.
      * destruct C as [tprints [tsave [Hprints [Hsave [Htr _]]]]].
        rewrite Htr. apply only_prints_silent in Hprints.
        destruct Hprints as [_ [_ [Hpc [Hpl Hpf]]]].
        destruct (save_step_only_saves w sc (arg_output args) (arg_format args))
          as [_ [Hsc [Hsl Hsf]]].
        rewrite <- Hsave in Hsc, Hsl, Hsf.
        unfold lookups, connections, files_written in *.
        cbn [flat_map lookup_of connect_of write_of app].
        rewrite !flat_map_app, Hl, Hpl, Hsl, Hrc, Hpc, Hsc, Hrf, Hf, Hpf.
        rewrite !app_nil_r. cbn [app]. split; [reflexivity |]. split.
        -- intros host port Hin. rewrite (Hc host port Hin).
           split; [discriminate | reflexivity].
        -- intros f Hin. destruct (Hsf f Hin) as [Ho [Hne Hin']].
           split; [exact Ho |]. split; [exact Hne |].
           exists (String c ip), tp, sc. auto.
      * rewrite C. unfold lookups, connections, files_written in *.
        cbn [trace fst flat_map lookup_of connect_of write_of app].
        rewrite !flat_map_app, Hl, Hrc, Hrf, Hf, !app_nil_r. cbn [app].
        split; [reflexivity |]. split.
        -- intros host port Hin. rewrite (Hc host port Hin).
           split; [discriminate | reflexivity].
        -- intros f [].
    + rewrite C. unfold lookups, connections, files_written in *.
      cbn [trace fst flat_map lookup_of connect_of write_of app].
      rewrite Hrc, Hrf. split; [reflexivity |].
      split; [intros host port [] | intros f []].
  - rewrite C. unfold lookups, connections, files_written in *.
    cbn [trace fst flat_map lookup_of connect_of write_of app].
    rewrite Hrc, Hrf. split; [reflexivity |].
    split; [intros host port [] | intros f []].
Qed.



(** X14. Only [socket.gaierror] is handled by the resolver: when the
    lookup of a target that does not pass the literal test raises an
    exception of another class, as for a name with an empty label, which
    the IDNA encoding refuses with a UnicodeError, this exception
    leaves [resolve_target] and [main] as it is, right after the lookup, with
    no notice printed and nothing probed or written. *)
Theorem other_lookup_errors_propagate (w : World) (sched : list nat)
    (args : Args) (e : exn) :
  isdigit w (replace "." EmptyString (arg_target args)) = false ->
  gethostbyname w (arg_target args) = Exc e ->
  exn_cls e <> Gaierror ->
  resolve_target w (scanner_of args) = ([ELookup (arg_target args)], Exc e) /\
  main w sched args =
    ([EPrint ("[*] Démarrage du scan sur " ++ arg_target args)%string;
      ELookup (arg_target args)], Exc e).
Proof.
  intros Hlit Hfail Hcls.
  assert (Hres := resolve_target_lookup w (scanner_of args) Hlit).
  cbn [target scanner_of PortScanner_init] in Hres. rewrite Hfail in Hres.
  assert (Hc : catch_gaierror (exn_cls e) = false)
    by (destruct (exn_cls e); try reflexivity; contradiction).
  rewrite Hc in Hres. split; [exact Hres |].
  assert (C := main_cases w sched args). cbv zeta in C.
  rewrite Hres in C. exact C.
Qed.

Lemma other_lookup_errors_propagate_witness :
  main strict_world [] (default_args "a..b") =
    ([EPrint "[*] Démarrage du scan sur a..b"; ELookup "a..b"],
     Exc (mkExn UnicodeError
            "encoding with 'idna' codec failed (UnicodeError: label empty or too long)")).
Proof.
  apply (other_lookup_errors_propagate strict_world [] (default_args "a..b")
           (mkExn UnicodeError
              "encoding with 'idna' codec failed (UnicodeError: label empty or too long)"));
    [reflexivity | reflexivity | discriminate].
Defined.

Lemma parse_ok_two_int_literals (w : World) (port_range : string) (a b : Z) :
  parse_port_range w port_range = Ok (a, b) -> two_int_literals w port_range = true.
Proof.
  intros Hp. destruct (two_int_literals w port_range) eqn:E; [reflexivity |].
  destruct (parse_port_range_exc _ _ E) as [msg H]. rewrite H in Hp. discriminate.
Qed.

Lemma save_results_write_guard (w : World) (self : PortScanner)
    (filename : option string) (fmt : string) (f : string) :
  In f (files_written (trace (save_results w self filename fmt))) ->
  (lower fmt = "json"%string \/ lower fmt = "csv"%string) /\
  is_ok (open_file w f) = true.
Proof.
  destruct filename as [[| c name] |]; try (intros []).
  assert (H := save_results_named w self c name fmt). cbv zeta in H.
  assert (Hs := save_results_only_saves w self c name fmt).
  apply only_saves_silent in Hs. destruct Hs as [_ [_ [_ [_ Hf]]]].
  intros Hin. rewrite (Hf f Hin). rewrite H in Hin.
  destruct (String.eqb_spec (lower fmt) "json") as [Ej | _].
  - split; [now left |].
    destruct (open_file w (String c name)); [reflexivity | destruct Hin].
  - destruct (String.eqb_spec (lower fmt) "csv") as [Ec | _];
      [| cbn in Hin; destruct Hin].
    split; [now right |].
    destruct (open_file w (String c name)); [reflexivity | destruct Hin].
Qed.

(** X15. A whole run writes to no file but the one named by its output
    argument, and only at the very end of a run that went well: the target
    was resolved, the range was two texts that [int] reads around one hyphen
    and the thread count positive, so that the scan completed; the format was json or csv, and
    the file could be opened. *)
Theorem main_writes_only_its_output (w : World) (sched : list nat) (args : Args)
    (f : string) :
  In f (files_written (trace (main w sched args))) ->
  arg_output args = Some f /\ f <> EmptyString /\
  (exists ip, outcome (resolve_target w (scanner_of args)) = Ok (Some ip)) /\
  two_int_literals w (arg_ports args) = true /\ (0 < arg_threads args)%Z /\
  (lower (arg_format args) = "json"%string \/
   lower (arg_format args) = "csv"%string) /\
  is_ok (open_file w f) = true.
Proof.
  intros Hin.
  destruct (main_trace_parts w sched args) as [_ [_ Hf]].
  destruct (Hf f Hin) as [Ho [Hne [ip [tp [sc [Hres [Hps Hsave]]]]]]].
  destruct (port_scan_completed _ _ _ _ _ _ Hps) as [a [b [Hp [Hth _]]]].
  destruct (save_results_write_guard _ _ _ _ _ Hsave) as [Hfmt Hopen].
  split; [exact Ho |]. split; [exact Hne |]. split; [eauto |].
  split; [now apply parse_ok_two_int_literals with a b |].
  split; [exact Hth |]. split; assumption.
Qed.

Lemma main_writes_only_its_output_witness :
  arg_output (mkArgs "scanme.lab" "22-23" 2 2%Q (Some "scan.csv"%string) "csv")
    = Some "scan.csv"%string /\
  two_int_literals lab_world "22-23" = true.
Proof.
  assert (Hin : In "scan.csv"%string
                  (files_written
                     (trace (main lab_world []
                               (mkArgs "scanme.lab" "22-23" 2 2%Q
                                       (Some "scan.csv"%string) "csv")))))
    by (left; reflexivity).
  destruct (main_writes_only_its_output lab_world []
              (mkArgs "scanme.lab" "22-23" 2 2%Q (Some "scan.csv"%string) "csv")
              "scan.csv" Hin) as [H1 [_ [_ [H2 _]]]].
  split; [exact H1 | exact H2].
Defined.

End Driver.

(** ** The pool, from submission to completion *)

Section PoolRuns.
Local Open Scope list_scope.

(** X16. One task per port, none lost and none run twice: from the state
    in which the scan starts submitting, some run takes the pool to the
    point where nothing is left to submit, queued or in flight; and in every
    state that any run reaches, the ports waiting to be submitted, queued, in
    flight and finished are together the ports of the range, each once. *)
Theorem pool_keeps_one_task_per_port (w : World) (self : PortScanner) (port_range : string)
    (st0 : scan_state) :
  scan_start w self port_range = Ok st0 ->
  (exists acts st,
     run acts st0 = Some st /\
     to_submit st = [] /\ work_queue (executor st) = [] /\
     in_flight (executor st) = [] /\
     finished (executor st) = to_submit st0) /\
  (forall acts st,
     run acts st0 = Some st ->
     Permutation (tasks st) (to_submit st0) /\ NoDup (tasks st)).
Proof.
  intros Hstart. split.
  - destruct (one_by_one_completes w self port_range st0 Hstart) as [st H].
    exists (one_by_one false (to_submit st0)), st. exact H.
  - intros acts st Hrun.
    destruct (scan_start_pool _ _ _ _ Hstart) as [_ [Hpool [a [b [_ Hports]]]]].
    assert (Hperm := run_keeps_tasks _ _ _ Hrun).
    assert (H0 : tasks st0 = to_submit st0).
    { unfold tasks, in_flight. rewrite Hpool. cbn. apply app_nil_r. }
    rewrite H0 in Hperm. split; [exact Hperm |].
    apply Permutation_NoDup with (to_submit st0).
    + now apply Permutation_sym.
    + rewrite Hports. apply NoDup_range.
Qed.

Lemma pool_keeps_one_task_per_port_witness :
  exists st,
    run [Submit false; Submit false; Take 1; Take 0; Finish 1]%nat
        (mkState [20; 21; 22]%Z (mkPool 2 [] [] [])) = Some st /\
    tasks st = [22; 21; 20]%Z /\
    Permutation (tasks st) [20; 21; 22]%Z.
Proof.
  eexists. split; [reflexivity |]. split; [reflexivity |].
  destruct (pool_keeps_one_task_per_port lab_world
              (PortScanner_init "10.0.0.7" 2 2%Q)
              "20-22" (mkState [20; 21; 22]%Z (mkPool 2 [] [] [])) eq_refl)
    as [_ H].
  apply (H [Submit false; Submit false; Take 1; Take 0; Finish 1]%nat _ eq_refl).
Defined.

End PoolRuns.

(** ** What the resolver answers *)

Section Resolver.

(** X17. The answers of the resolver, read backwards.  It answers [None]
    only for a name whose lookup raised [socket.gaierror]; it answers an
    address only when what is left of the target without its dots passes
    [str.isdigit], and the address is then the target itself, or when the
    lookup of the name returned that address; and it raises only what a
    lookup raised, never a [socket.gaierror]. *)
Theorem resolve_target_answers (w : World) (self : PortScanner) :
  (outcome (resolve_target w self) = Ok None <->
   isdigit w (replace "." EmptyString (target self)) = false /\
   exists e, gethostbyname w (target self) = Exc e /\ exn_cls e = Gaierror) /\
  (forall ip,
     outcome (resolve_target w self) = Ok (Some ip) <->
     (isdigit w (replace "." EmptyString (target self)) = true /\ ip = target self) \/
     (isdigit w (replace "." EmptyString (target self)) = false /\
      gethostbyname w (target self) = Ok ip)) /\
  (forall e,
     outcome (resolve_target w self) = Exc e <->
     isdigit w (replace "." EmptyString (target self)) = false /\
     gethostbyname w (target self) = Exc e /\ exn_cls e <> Gaierror).
Proof.
  destruct (isdigit w (replace "." EmptyString (target self))) eqn:E.
  - rewrite (resolve_target_literal w self E). cbn [outcome snd].
    split; [| split].
    + split; [discriminate | intros [H _]; discriminate].
    + intros ip. split.
      * intros H. injection H as <-. now left.
      * intros [[_ ->] | [H _]]; [reflexivity | discriminate].
    + intros e. split; [discriminate | intros [H _]; discriminate].
  - rewrite (resolve_target_lookup w self E).
    destruct (gethostbyname w (target self)) as [addr | ex].
    + cbn [outcome snd]. split; [| split].
      * split; [discriminate | intros [_ [e [H _]]]; discriminate].
      * intros ip. split.
        -- intros H. injection H as <-. now right.
        -- intros [[H _] | [_ H]]; [discriminate | now injection H as <-].
      * intros e. split; [discriminate | intros [_ [H _]]; discriminate].
    + destruct (catch_gaierror (exn_cls ex)) eqn:Ec; cbn [outcome snd].
      * assert (Hg : exn_cls ex = Gaierror)
          by (destruct (exn_cls ex); try discriminate; reflexivity).
        split; [| split].
        -- split; [eauto |]. reflexivity.
        -- intros ip. split; [discriminate |].
           intros [[H _] | [_ H]]; discriminate.
        -- intros e. split; [discriminate |].
           intros [_ [H Hne]]. injection H as <-. contradiction.
      * assert (Hg : exn_cls ex <> Gaierror)
          by (intros Hx; rewrite Hx in Ec; discriminate).
        split; [| split].
        -- split; [discriminate |].
           intros [_ [e [H He]]]. injection H as <-. contradiction.
        -- intros ip. split; [discriminate |].
           intros [[H _] | [_ H]]; discriminate.
        -- intros e. split.
           ++ intros H. injection H as <-. auto.
           ++ intros [_ [H _]]. now injection H as <-.
Qed.

Lemma resolve_target_answers_witness :
  outcome (resolve_target lab_world (PortScanner_init "scanme.lab" 10 2%Q)) =
    Ok (Some "10.0.0.7") /\
  outcome (resolve_target lab_world (PortScanner_init "nowhere.lab" 10 2%Q)) =
    Ok None.
Proof.
  destruct (resolve_target_answers lab_world (PortScanner_init "scanme.lab" 10 2%Q))
    as [_ [H _]].
  destruct (resolve_target_answers lab_world (PortScanner_init "nowhere.lab" 10 2%Q))
    as [H' _].
  split.
  - apply H. right. split; reflexivity.
  - apply H'. split; [reflexivity |].
    exists (mkExn Gaierror "[Errno -2] Name or service not known").
    split; reflexivity.
Defined.

End Resolver.
